(** * Verification of the Fibonacci calculator and the calculator demo

    Shallow embedding of [ai_generated_fibonacci.py] and
    [demo_calculator.py].  Python integers are unbounded, so they are [Z];
    Python floats are IEEE-754 binary64 values, modelled by the executable
    specification [spec_float] of the standard library. *)

From Stdlib Require Import ZArith Lia Bool String QArith Qpower Qfield Qcanon.
From Stdlib Require Import SpecFloat.
From Equations Require Import Equations.

Local Open Scope Z_scope.

(** ** Python values, exceptions and operators *)

(** The exceptions the two scripts can meet.  [ValueError] is the one the
    calculator raises itself (the specification calls it the DivisionByZero
    error kind); the others are raised by the interpreter's operators and by
    [assert]. *)
Inductive exn : Type :=
| ValueError (msg : string)
| ZeroDivisionError
| OverflowError
| AssertionError (msg : string).

(** A call either returns a value or raises. *)
Inductive outcome (A : Type) : Type :=
| Return (a : A)
| Raise (e : exn).
Arguments Return {A} a.
Arguments Raise {A} e.

Definition bind {A B : Type} (m : outcome A) (k : A -> outcome B) : outcome B :=
  match m with
  | Return a => k a
  | Raise e => Raise e
  end.

Declare Scope py_scope.
Delimit Scope py_scope with py.
Notation "x <- m ;; k" := (bind m (fun x => k))
  (at level 61, m at next level, right associativity) : py_scope.

(** A number whose type is only known at run time. *)
Inductive value : Type :=
| VInt (z : Z)
| VFloat (f : spec_float).

(** The specification's DivisionByZero error kind. *)
Definition DivisionByZero (e : exn) : bool :=
  match e with
  | ValueError _ => true
  | _ => false
  end.

(** *** binary64 *)

Definition prec : Z := 53.
Definition emax : Z := 1024.

Definition float_add : spec_float -> spec_float -> spec_float := SFadd prec emax.
Definition float_sub : spec_float -> spec_float -> spec_float := SFsub prec emax.
Definition float_mul : spec_float -> spec_float -> spec_float := SFmul prec emax.

(** The rational number a float stands for; infinities and NaN have none. *)
Definition SF2Q (f : spec_float) : option Q :=
  match f with
  | S754_zero _ => Some 0%Q
  | S754_finite s m e => Some (inject_Z (cond_Zopp s (Zpos m)) * Qpower 2 e)%Q
  | _ => None
  end.

(** A float that stands for a number: a zero or a finite one. *)
Definition is_number (f : spec_float) : bool :=
  match f with
  | S754_zero _ | S754_finite _ _ _ => true
  | _ => false
  end.

(** The rounding step's record for a mantissa with nothing shifted out. *)
Definition exact_record (m : Z) : shr_record :=
  {| shr_m := m; shr_r := false; shr_s := false |}.

(** The exponent the division of two integers of these magnitudes is
    carried out at: [53] bits below the quotient's leading bit, but not
    below the least binary64 exponent nor above the integers' own. *)
Definition div_exponent (ma mb : positive) : Z :=
  Z.min (Z.max (Zpos (digits2_pos ma) - Zpos (digits2_pos mb) - 53) (-1074)) 0.

(** The exponent an integer of this magnitude is converted to float at:
    [53] bits below its leading bit, but not above zero. *)
Definition int_exponent (m : positive) : Z :=
  Z.min 0 (Zpos (digits2_pos m) - 53).

(** The normalised float of sign [s] and of a magnitude [m] that fits 53
    bits: the mantissa is [m] shifted up to 53 bits. *)
Definition float53 (s : bool) (m : positive) : spec_float :=
  S754_finite s (Z.to_pos (Zpos m * 2 ^ (53 - Zpos (digits2_pos m))))
    (Zpos (digits2_pos m) - 53).

(** [f] stands for exactly the rational [q]. *)
Definition float_is (f : spec_float) (q : Q) : Prop :=
  exists q', SF2Q f = Some q' /\ (q' == q)%Q.

(** [f] is within one unit in its last place of the quotient [a/b] of two
    integers, [b <> 0], with the sign bit the exclusive or of the operands'
    signs: for [f] of mantissa [m] and
    exponent [e], [(m-1) * 2^e <= |a/b| <= (m+1) * 2^e]; a zero stands for a
    quotient below [2^-1074], the least positive binary64 value.  No
    binary64 exponent is below [-1074], so both sides are written multiplied
    by [|b| * 2^1074]. *)
Definition within_one_ulp (f : spec_float) (a b : Z) : Prop :=
  match f with
  | S754_zero s =>
      s = xorb (a <? 0) (b <? 0) /\ Z.abs a * 2 ^ 1074 < Z.abs b
  | S754_finite s m e =>
      s = xorb (a <? 0) (b <? 0)
      /\ -1074 <= e
      /\ (Zpos m - 1) * 2 ^ (e + 1074) * Z.abs b
         <= Z.abs a * 2 ^ 1074
         <= (Zpos m + 1) * 2 ^ (e + 1074) * Z.abs b
  | _ => False
  end.

(** Where the value [N / X] lies from the mantissa [m] up to [m + 1]: on
    [m], below the midpoint, on it, or above it.  This is what a
    [location] stands for in the rounding steps. *)
Definition located (N X m : Z) (l : location) : Prop :=
  match l with
  | loc_Exact => N = m * X
  | loc_Inexact Lt => m * X < N /\ 2 * N < (2 * m + 1) * X
  | loc_Inexact Eq => 2 * N = (2 * m + 1) * X
  | loc_Inexact Gt => (2 * m + 1) * X < 2 * N /\ N < (m + 1) * X
  end.

(** [m * 2^e] is the binary64 magnitude nearest to [N / (D * 2^1074)], ties
    to even.  The pair is canonical: a 53-bit mantissa, or a shorter one at
    the least exponent [-1074], where zero is the mantissa 0.  With [X] one
    unit in the last place of [m * 2^e], scaled as [N] is, the value lies
    between the midpoints to the neighbouring magnitudes: half a unit
    below and above [m]; a quarter of a unit below the least 53-bit
    mantissa [2^52] above the least exponent, where the magnitude below is
    half as far away.  On a midpoint the mantissa is even. *)
Definition nearest_even (N D m e : Z) : Prop :=
  let X := 2 ^ (e + 1074) * D in
  0 <= m /\ -1074 <= e
  /\ (m = 0 -> e = -1074)
  /\ (1 <= m -> fexp prec emax (Zdigits2 m + e) = e)
  /\ (2 * m - 1) * X <= 2 * N <= (2 * m + 1) * X
  /\ (m = 2 ^ 52 -> -1074 < e -> (4 * m - 1) * X <= 4 * N)
  /\ (2 * N = (2 * m - 1) * X \/ 2 * N = (2 * m + 1) * X -> Z.even m = true).

(** [f] is the binary64 float nearest to the quotient [a/b] of two
    integers, [b <> 0], ties to even, with the sign bit the exclusive or of
    the operands' signs; a zero is the mantissa 0 at the least exponent. *)
Definition nearest_float (f : spec_float) (a b : Z) : Prop :=
  match f with
  | S754_zero s =>
      s = xorb (a <? 0) (b <? 0)
      /\ nearest_even (Z.abs a * 2 ^ 1074) (Z.abs b) 0 (-1074)
  | S754_finite s m e =>
      s = xorb (a <? 0) (b <? 0)
      /\ nearest_even (Z.abs a * 2 ^ 1074) (Z.abs b) (Zpos m) e
  | _ => False
  end.

(** The float a rounding step ends with, from its last mantissa and
    exponent: the last [match] of the library's [binary_round_aux]. *)
Definition float_of_rounded (s : bool) (m e : Z) : spec_float :=
  match m with
  | 0 => S754_zero s
  | Zpos p => if e <=? emax - prec then S754_finite s p e else S754_infinity s
  | Zneg _ => S754_nan
  end.

(** [float == int] compares the exact values. *)
Definition float_eq_int (f : spec_float) (z : Z) : bool :=
  match SF2Q f with
  | Some q => Qeq_bool q (inject_Z z)
  | None => false
  end.

(** An integer under its sign and magnitude, not normalised. *)
Definition float_of_parts (z : Z) (e : Z) : spec_float :=
  match z with
  | Z0 => S754_zero false
  | Zpos m => S754_finite false m e
  | Zneg m => S754_finite true m e
  end.

(** [float(z)]: round to nearest, ties to even; an integer beyond the
    binary64 range raises [OverflowError]. *)
Definition int_to_float (z : Z) : outcome spec_float :=
  match binary_normalize prec emax z 0 false with
  | S754_infinity _ => Raise OverflowError
  | f => Return f
  end.

(** [a / b] on two integers: the correctly rounded quotient.  A zero
    dividend gives a zero whose sign is the exclusive or of the operands'
    signs; a quotient that rounds beyond the binary64 range raises
    [OverflowError]. *)
Definition int_true_divide (a b : Z) : outcome spec_float :=
  let negate := xorb (a <? 0) (b <? 0) in
  match b, a with
  | Z0, _ => Raise ZeroDivisionError
  | _, Z0 => Return (S754_zero negate)
  | _, _ =>
      match SFdiv prec emax (float_of_parts a 0) (float_of_parts b 0) with
      | S754_infinity _ => Raise OverflowError
      | f => Return f
      end
  end.

(** [x ** y] on the floats an [int ** int] with a negative exponent hands
    over: [x] is an integer's float and [y] is a negative integer's float.
    Zero to a negative power raises [ZeroDivisionError]; this is decided by
    the interpreter before the C library is called.  Otherwise the
    interpreter returns what the C library's [pow] returns.  The value
    written here is an idealisation: the correctly rounded [1 / x^|y|].  A
    real [pow] is not required to round correctly and may return a
    neighbouring float (CPython gives [147 ** -3] and [1923 ** -1] one unit
    in the last place away from it), so nothing below relies on the value
    returned in this case, only on the kind of outcome.  [int_to_float]
    hands over zeros and finite floats only, so the last case is never
    reached from [int_pow]. *)
Definition float_pow_negative (x y : spec_float) : outcome spec_float :=
  match x, y with
  | S754_zero _, _ => Raise ZeroDivisionError
  | S754_finite sx mx ex, S754_finite _ my ey =>
      let k := Z.shiftl (Zpos my) ey in
      Return (SFdiv prec emax (S754_finite false 1 0)
                (S754_finite (sx && Z.odd k) (Z.to_pos (Zpos mx ^ k)) (ex * k)))
  | _, _ => Return S754_nan
  end.

(** [a ** b] on two integers: exact for [b >= 0]; a negative exponent
    converts both operands to float first. *)
Definition int_pow (a b : Z) : outcome value :=
  if 0 <=? b then Return (VInt (a ^ b))
  else (x <- int_to_float a ;;
        y <- int_to_float b ;;
        r <- float_pow_negative x y ;;
        Return (VFloat r))%py.

(** [a % b] on two integers: floor-mod, the remainder has the divisor's
    sign. *)
Definition int_mod (a b : Z) : outcome Z :=
  if b =? 0 then Raise ZeroDivisionError else Return (a mod b).

(** *** Operator dispatch

    Python resolves [a + b], [a / b], ... on the operands' types.  One class
    per operator, one instance per combination of operand types that the
    scripts and the properties below reach; the result type follows from
    the operand types. *)

Class PyEqZero (A : Type) := py_eq_zero : A -> bool.
Class PyEq (A B : Type) := py_eq : A -> B -> bool.
Class PyAdd (A B C : Type) := py_add : A -> B -> outcome C.
Class PySub (A B C : Type) := py_sub : A -> B -> outcome C.
Class PyMul (A B C : Type) := py_mul : A -> B -> outcome C.
Class PyTrueDiv (A B C : Type) := py_truediv : A -> B -> outcome C.
Class PyPow (A B C : Type) := py_pow : A -> B -> outcome C.
Class PyMod (A B C : Type) := py_mod : A -> B -> outcome C.

#[global] Hint Mode PyEqZero ! : typeclass_instances.
#[global] Hint Mode PyEq ! ! : typeclass_instances.
#[global] Hint Mode PyAdd ! ! - : typeclass_instances.
#[global] Hint Mode PySub ! ! - : typeclass_instances.
#[global] Hint Mode PyMul ! ! - : typeclass_instances.
#[global] Hint Mode PyTrueDiv ! ! - : typeclass_instances.
#[global] Hint Mode PyPow ! ! - : typeclass_instances.
#[global] Hint Mode PyMod ! ! - : typeclass_instances.

#[global] Instance int_eq_zero : PyEqZero Z := fun b => b =? 0.
#[global] Instance int_eq_int : PyEq Z Z := Z.eqb.
#[global] Instance float_eq : PyEq spec_float Z := float_eq_int.
#[global] Instance value_eq : PyEq value Z := fun v z =>
  match v with
  | VInt x => x =? z
  | VFloat f => float_eq_int f z
  end.

#[global] Instance int_add : PyAdd Z Z Z := fun a b => Return (a + b).
#[global] Instance int_sub : PySub Z Z Z := fun a b => Return (a - b).
#[global] Instance int_mul : PyMul Z Z Z := fun a b => Return (a * b).
#[global] Instance int_div : PyTrueDiv Z Z spec_float := int_true_divide.
#[global] Instance int_power : PyPow Z Z value := int_pow.
#[global] Instance int_modulo : PyMod Z Z Z := int_mod.

(** [int + x] where [x] came out of [**]: an int stays exact, a float
    makes the int operand a float first. *)
#[global] Instance int_add_value : PyAdd Z value value := fun a b =>
  match b with
  | VInt y => Return (VInt (a + y))
  | VFloat f => (x <- int_to_float a ;; Return (VFloat (float_add x f)))%py
  end.

(** [x - f] with a float on the right. *)
#[global] Instance value_sub_float : PySub value spec_float spec_float :=
  fun a f =>
  match a with
  | VInt x => (fx <- int_to_float x ;; Return (float_sub fx f))%py
  | VFloat x => Return (float_sub x f)
  end.

(** [f * b] with a float on the left and an int on the right. *)
#[global] Instance float_mul_int : PyMul spec_float Z spec_float :=
  fun f b => (fb <- int_to_float b ;; Return (float_mul f fb))%py.

(** [x * y] on two run-time numbers: two ints multiply exactly, otherwise
    the int operand is made a float first. *)
#[global] Instance value_mul : PyMul value value value := fun a b =>
  match a, b with
  | VInt x, VInt y => Return (VInt (x * y))
  | VInt x, VFloat g => (f <- int_to_float x ;; Return (VFloat (float_mul f g)))%py
  | VFloat f, VInt y => (g <- int_to_float y ;; Return (VFloat (float_mul f g)))%py
  | VFloat f, VFloat g => Return (VFloat (float_mul f g))
  end.

(** Exact rational operands ([fractions.Fraction], always in lowest terms). *)

#[global] Instance frac_eq_zero : PyEqZero Qc := fun b => Qeq_bool b 0.
#[global] Instance frac_mul : PyMul Qc Qc Qc := fun a b => Return (a * b)%Qc.
#[global] Instance frac_div : PyTrueDiv Qc Qc Qc := fun a b =>
  if Qeq_bool b 0 then Raise ZeroDivisionError else Return (a / b)%Qc.

(** ** demo_calculator.py *)

Module Calculator.

Section Operations.

Context {A B C : Type}.

(** [def add(a, b): return a + b] *)
Definition add `{PyAdd A B C} (a : A) (b : B) : outcome C := py_add a b.

(** [def subtract(a, b): return a - b] *)
Definition subtract `{PySub A B C} (a : A) (b : B) : outcome C := py_sub a b.

(** [def multiply(a, b): return a * b] *)
Definition multiply `{PyMul A B C} (a : A) (b : B) : outcome C := py_mul a b.

(** [def divide(a, b)]: the zero check comes before the division. *)
Definition divide `{PyEqZero B} `{PyTrueDiv A B C} (a : A) (b : B) : outcome C :=
  if py_eq_zero b then Raise (ValueError "Cannot divide by zero!")
  else py_truediv a b.

(** [def power(a, b): return a ** b] *)
Definition power `{PyPow A B C} (a : A) (b : B) : outcome C := py_pow a b.

(** [def modulo(a, b)]: the zero check comes before the remainder. *)
Definition modulo `{PyEqZero B} `{PyMod A B C} (a : A) (b : B) : outcome C :=
  if py_eq_zero b then Raise (ValueError "Cannot modulo by zero!")
  else py_mod a b.

End Operations.

End Calculator.

(** *** The test suite

    The module-level statements run top to bottom, assign the global
    [result] and stop at the first failing [assert].  The printed text is
    left out. *)

Module Harness.

Import Calculator.

Record globals : Type := { result : option value }.

(** A statement of the script: it may read and write the globals and may
    raise. *)
Definition script (A : Type) : Type := globals -> outcome A * globals.

Definition ret {A : Type} (a : A) : script A := fun g => (Return a, g).

Definition seq {A B : Type} (m : script A) (k : A -> script B) : script B :=
  fun g => match m g with
           | (Return a, g') => k a g'
           | (Raise e, g') => (Raise e, g')
           end.

Declare Scope script_scope.
Delimit Scope script_scope with script.
Notation "x <- m ;; k" := (seq m (fun x => k))
  (at level 61, m at next level, right associativity) : script_scope.
Notation "m ;; k" := (seq m (fun _ => k))
  (at level 61, right associativity) : script_scope.

(** Evaluating an expression built from calls: the functions have no access
    to the globals. *)
Definition call {A : Type} (m : outcome A) : script A := fun g => (m, g).

(** [result = v] *)
Definition assign (v : value) : script unit :=
  fun _ => (Return tt, {| result := Some v |}).

(** [assert c, msg] *)
Definition assert (c : bool) (msg : string) : script unit :=
  fun g => (if c then Return tt else Raise (AssertionError msg), g).

(** [try: m] with the outcome handed back instead of propagated. *)
Definition attempt {A : Type} (m : script A) : script (outcome A) :=
  fun g => let (r, g') := m g in (Return r, g').

Definition test1 : script unit :=
  (r <- call (add 5 3) ;;
   assign (VInt r) ;;
   assert (py_eq r 8) "Addition test failed!")%script.

Definition test2 : script unit :=
  (r <- call (subtract 10 4) ;;
   assign (VInt r) ;;
   assert (py_eq r 6) "Subtraction test failed!")%script.

Definition test3 : script unit :=
  (r <- call (multiply 6 7) ;;
   assign (VInt r) ;;
   assert (py_eq r 42) "Multiplication test failed!")%script.

Definition test4 : script unit :=
  (r <- call (divide 20 5) ;;
   assign (VFloat r) ;;
   assert (py_eq r 4) "Division test failed!")%script.

Definition test5 : script unit :=
  (r <- call (power 2 10) ;;
   assign r ;;
   assert (py_eq r 1024) "Power test failed!")%script.

Definition test6 : script unit :=
  (r <- call (modulo 17 5) ;;
   assign (VInt r) ;;
   assert (py_eq r 2) "Modulo test failed!")%script.

(** Test 7: [divide(10, 0)] under [try ... except ValueError].  [true] when
    the error was caught, [false] when the call returned (the script prints
    a failure line and goes on); any other exception propagates. *)
Definition test7 : script bool :=
  (r <- attempt (call (divide 10 0 : outcome spec_float)) ;;
   match r with
   | Return _ => ret false
   | Raise (ValueError _) => ret true
   | Raise e => call (Raise e)
   end)%script.

(** [add(multiply(3, 4), power(2, 3)) - divide(16, 4)], operands evaluated
    left to right. *)
Definition composite : outcome spec_float :=
  (x <- multiply 3 4 ;;
   y <- power 2 3 ;;
   s <- add x y ;;
   d <- divide 16 4 ;;
   py_sub s d)%py.

Definition test8 : script unit :=
  (r <- call composite ;;
   assign (VFloat r) ;;
   assert (py_eq r 16) "Complex calculation failed!")%script.

Definition test_suite : script bool :=
  (test1 ;; test2 ;; test3 ;; test4 ;; test5 ;; test6 ;;
   caught <- test7 ;;
   test8 ;;
   ret caught)%script.

End Harness.

(** ** ai_generated_fibonacci.py *)

Module Fibonacci.

(** [def fibonacci(n)]: the recursion is on [n-1] and [n-2], guarded by
    [n <= 0] and [n == 1]; the measure is [n] itself. *)
Equations? fibonacci (n : Z) : Z by wf (Z.to_nat n) lt :=
  fibonacci n with Z_le_gt_dec n 0 := {
    | left _ => 0
    | right _ with Z.eq_dec n 1 := {
        | left _ => 1
        | right _ => fibonacci (n - 1) + fibonacci (n - 2) } }.
Proof. all: lia. Qed.

(** The same body run by an interpreter with a bounded call stack: [depth]
    is the number of frames that may still be pushed, and [None] means the
    stack was exhausted before the call returned. *)
Fixpoint fibonacci_depth (depth : nat) (n : Z) : option Z :=
  match depth with
  | O => None
  | S d =>
      if n <=? 0 then Some 0
      else if n =? 1 then Some 1
      else match fibonacci_depth d (n - 1), fibonacci_depth d (n - 2) with
           | Some x, Some y => Some (x + y)
           | _, _ => None
           end
  end.

(** The number of times the body is entered by one outer call: the same
    branches, each entry counted once. *)
Equations? fibonacci_calls (n : Z) : Z by wf (Z.to_nat n) lt :=
  fibonacci_calls n with Z_le_gt_dec n 0 := {
    | left _ => 1
    | right _ with Z.eq_dec n 1 := {
        | left _ => 1
        | right _ => 1 + fibonacci_calls (n - 1) + fibonacci_calls (n - 2) } }.
Proof. all: lia. Qed.

(** The canonical sequence F(0)=0, F(1)=1, F(k+2)=F(k+1)+F(k), on [nat]. *)
Fixpoint canonical (k : nat) : Z :=
  match k with
  | O => 0
  | S k' => match k' with
            | O => 1
            | S k'' => canonical k' + canonical k''
            end
  end.

(** [main]: the values printed for [i in range(10)]. *)
Definition main_values : list Z :=
  List.map (fun i => fibonacci (Z.of_nat i)) (List.seq 0 10).

End Fibonacci.

(** * Properties *)

(** ** The Fibonacci function *)

Section FibonacciProperties.

Import Fibonacci.

(** The defining equation, in the shape of the Python body. *)
Lemma fibonacci_body (n : Z) :
  fibonacci n =
  if n <=? 0 then 0
  else if n =? 1 then 1
  else fibonacci (n - 1) + fibonacci (n - 2).
Proof.
  rewrite fibonacci_equation_1.
  destruct (Z_le_gt_dec n 0) as [Hle | Hgt]; cbn.
  - apply Z.leb_le in Hle. now rewrite Hle.
  - assert (Hn : (n <=? 0) = false) by (apply Z.leb_gt; lia).
    rewrite Hn.
    destruct (Z.eq_dec n 1) as [-> | Hne]; cbn.
    + reflexivity.
    + assert (H1 : (n =? 1) = false) by (apply Z.eqb_neq; exact Hne).
      now rewrite H1.
Qed.

Lemma canonical_step (k : nat) :
  canonical (S (S k)) = canonical (S k) + canonical k.
Proof. reflexivity. Qed.

(** On the naturals the function is the canonical sequence. *)
Lemma fibonacci_canonical (k : nat) :
  fibonacci (Z.of_nat k) = canonical k.
Proof.
  enough (H : fibonacci (Z.of_nat k) = canonical k
              /\ fibonacci (Z.of_nat (S k)) = canonical (S k)) by apply H.
  induction k as [| k [IH0 IH1]].
  - split; reflexivity.
  - split; [exact IH1 |].
    rewrite fibonacci_body, canonical_step.
    replace (Z.of_nat (S (S k)) <=? 0) with false by (symmetry; apply Z.leb_gt; lia).
    replace (Z.of_nat (S (S k)) =? 1) with false by (symmetry; apply Z.eqb_neq; lia).
    replace (Z.of_nat (S (S k)) - 1) with (Z.of_nat (S k)) by lia.
    replace (Z.of_nat (S (S k)) - 2) with (Z.of_nat k) by lia.
    now rewrite IH0, IH1.
Qed.

(** A deeper stack never changes a result already obtained. *)
Lemma fibonacci_depth_mono (d : nat) :
  forall (n v : Z), fibonacci_depth d n = Some v ->
                    fibonacci_depth (S d) n = Some v.
Proof.
  induction d as [| d IH]; intros n v H; [discriminate |].
  cbn [fibonacci_depth] in H |- *.
  destruct (n <=? 0); [exact H |].
  destruct (n =? 1); [exact H |].
  destruct (fibonacci_depth d (n - 1)) as [x |] eqn:Ex; [| discriminate].
  destruct (fibonacci_depth d (n - 2)) as [y |] eqn:Ey; [| discriminate].
  apply IH in Ex. apply IH in Ey.
  cbn [fibonacci_depth] in Ex, Ey. now rewrite Ex, Ey.
Qed.

(** What [main] prints for [range(10)]. *)
Lemma main_values_are_first_ten :
  main_values = (0 :: 1 :: 1 :: 2 :: 3 :: 5 :: 8 :: 13 :: 21 :: 34 :: nil)%list.
Proof. reflexivity. Qed.

(** C1: for 0 <= n <= 9, fibonacci(n) is the n-th element of
    0,1,1,2,3,5,8,13,21,34, the sequence F(0)=0, F(1)=1,
    F(n)=F(n-1)+F(n-2). *)
Theorem fibonacci_first_ten (n : Z) :
  0 <= n <= 9 ->
  fibonacci n = List.nth (Z.to_nat n) (0 :: 1 :: 1 :: 2 :: 3 :: 5 :: 8 :: 13 :: 21 :: 34 :: nil) 0
  /\ fibonacci n = canonical (Z.to_nat n).
Proof.
  intros Hn.
  assert (Hc : fibonacci n = canonical (Z.to_nat n)).
  { rewrite <- fibonacci_canonical. f_equal. lia. }
  split; [| exact Hc].
  rewrite Hc.
  assert (Hk : (Z.to_nat n < 10)%nat) by lia.
  revert Hk. generalize (Z.to_nat n) as k. intros k Hk.
  do 10 (destruct k as [| k]; [reflexivity |]).
  lia.
Qed.

Lemma fibonacci_first_ten_witness :
  fibonacci 7 = 13 /\ fibonacci 7 = canonical 7.
Proof. apply (fibonacci_first_ten 7). lia. Defined.

(** C5: for every integer n <= 0, negative ones included,
    fibonacci(n) = 0. *)
Theorem fibonacci_nonpositive (n : Z) :
  n <= 0 -> fibonacci n = 0.
Proof.
  intros Hn. rewrite fibonacci_body.
  apply Z.leb_le in Hn. now rewrite Hn.
Qed.

Lemma fibonacci_nonpositive_witness : fibonacci (-5) = 0.
Proof. apply (fibonacci_nonpositive (-5)). lia. Defined.

(** C6: fibonacci is total on the integers.  For every integer n the
    double recursion returns on any call stack deeper than max(n, 0)
    frames, it returns the function's value, and no path of the body
    raises: the n <= 0 case stops every descent. *)
Theorem fibonacci_total (n : Z) (depth : nat) :
  (Z.to_nat n < depth)%nat ->
  fibonacci_depth depth n = Some (fibonacci n).
Proof.
  revert n. induction depth as [| d IH]; intros n Hd; [lia |].
  cbn [fibonacci_depth]. rewrite (fibonacci_body n).
  destruct (n <=? 0) eqn:E0; [reflexivity |].
  destruct (n =? 1) eqn:E1; [reflexivity |].
  apply Z.leb_gt in E0. apply Z.eqb_neq in E1.
  rewrite (IH (n - 1)) by lia.
  rewrite (IH (n - 2)) by lia.
  reflexivity.
Qed.

Lemma fibonacci_total_witness :
  fibonacci_depth 10 9 = Some (fibonacci 9)
  /\ fibonacci_depth 1 (-3) = Some (fibonacci (-3)).
Proof.
  split; [apply (fibonacci_total 9 10) | apply (fibonacci_total (-3) 1)];
    cbn; lia.
Defined.

End FibonacciProperties.

(** ** binary64 division of integers *)

(** The division of two non-zero integers leaves one [SFdiv] call in the
    goal; [tac] is run on its two signs and magnitudes. *)
Ltac on_int_quotient tac :=
  match goal with
  | |- context [SFdiv prec emax (S754_finite ?sa ?ma 0) (S754_finite ?sb ?mb 0)] =>
      tac sa sb ma mb
  end.

Section Binary64.

(** A positive number of [d] binary digits lies in [2^(d-1), 2^d). *)
Lemma digits2_bounds (p : positive) :
  2 ^ (Zpos (digits2_pos p) - 1) <= Zpos p < 2 ^ Zpos (digits2_pos p).
Proof.
  induction p as [p IH | p IH |]; [| | cbn; lia].
  all: cbn [digits2_pos]; rewrite Pos2Z.inj_succ.
  all: set (d := Zpos (digits2_pos p)) in *.
  all: replace (Z.succ d - 1) with (Z.succ (d - 1)) by lia.
  all: rewrite !Z.pow_succ_r by lia.
  all: lia.
Qed.

(** ... and that interval determines the digit count. *)
Lemma digits2_unique (p : positive) (d : Z) :
  2 ^ (d - 1) <= Zpos p < 2 ^ d -> Zpos (digits2_pos p) = d.
Proof.
  intros [Hlo Hhi].
  pose proof (digits2_bounds p) as [Hlo' Hhi'].
  set (d' := Zpos (digits2_pos p)) in *.
  assert (Hd : 0 < d).
  { destruct d as [| d | d]; [cbn in Hhi; lia | lia |].
    rewrite Z.pow_neg_r in Hhi; lia. }
  destruct (Z.lt_trichotomy d' d) as [H | [H | H]]; [| exact H |]; exfalso.
  - assert (2 ^ d' <= 2 ^ (d - 1)) by (apply Z.pow_le_mono_r; lia). lia.
  - assert (2 ^ d <= 2 ^ (d' - 1)) by (apply Z.pow_le_mono_r; lia). lia.
Qed.

(** Shifting left by [k] adds [k] digits. *)
Lemma digits2_shift (p : positive) (k : Z) :
  0 <= k -> Zdigits2 (Zpos p * 2 ^ k) = Zpos (digits2_pos p) + k.
Proof.
  intros Hk.
  pose proof (digits2_bounds p) as [Hlo Hhi].
  assert (Hpow : 0 < 2 ^ k) by (apply Z.pow_pos_nonneg; lia).
  destruct (Zpos p * 2 ^ k) as [| m | m] eqn:E; try lia.
  cbn [Zdigits2]. apply digits2_unique. rewrite <- E.
  replace (Zpos (digits2_pos p) + k - 1) with (Zpos (digits2_pos p) - 1 + k) by lia.
  rewrite !Z.pow_add_r by lia. nia.
Qed.

(** The digit count of a product is the sum of the counts, or one less. *)
Lemma digits2_mul (p q : positive) :
  let dp := Zpos (digits2_pos p) in
  let dq := Zpos (digits2_pos q) in
  let d := Zpos (digits2_pos (p * q)) in
  d = dp + dq - 1 \/ d = dp + dq.
Proof.
  intros dp dq d.
  pose proof (digits2_bounds p) as [Hp1 Hp2].
  pose proof (digits2_bounds q) as [Hq1 Hq2].
  pose proof (digits2_bounds (p * q)) as [Hm1 Hm2].
  fold dp in Hp1, Hp2. fold dq in Hq1, Hq2. fold d in Hm1, Hm2.
  rewrite Pos2Z.inj_mul in Hm1, Hm2.
  assert (Hlo : 2 ^ (dp + dq - 2) <= Zpos p * Zpos q).
  { replace (dp + dq - 2) with ((dp - 1) + (dq - 1)) by lia.
    rewrite Z.pow_add_r by lia.
    assert (0 < 2 ^ (dp - 1)) by (apply Z.pow_pos_nonneg; lia).
    assert (0 < 2 ^ (dq - 1)) by (apply Z.pow_pos_nonneg; lia). nia. }
  assert (Hhi : Zpos p * Zpos q < 2 ^ (dp + dq)).
  { rewrite Z.pow_add_r by lia. nia. }
  assert (dp + dq - 2 < d).
  { apply (Z.pow_lt_mono_r_iff 2); lia. }
  assert (d - 1 < dp + dq).
  { apply (Z.pow_lt_mono_r_iff 2); lia. }
  lia.
Qed.

(** The exponent a binary64 value of magnitude [2^x] is stored with. *)
Lemma fexp_binary64 (x : Z) : fexp prec emax x = Z.max (x - 53) (-1074).
Proof. reflexivity. Qed.

(** The binary iteration of the rounding step is plain iteration. *)
Lemma iter_pos_nat {A : Type} (f : A -> A) (n : positive) :
  forall x, SpecFloat.iter_pos f n x = Nat.iter (Pos.to_nat n) f x.
Proof.
  induction n as [n IH | n IH |]; intros x; cbn [SpecFloat.iter_pos].
  - rewrite !IH, Pos2Nat.inj_xI.
    replace (S (2 * Pos.to_nat n)) with (Pos.to_nat n + (Pos.to_nat n + 1))%nat by lia.
    rewrite !Nat.iter_add. reflexivity.
  - rewrite !IH, Pos2Nat.inj_xO.
    replace (2 * Pos.to_nat n)%nat with (Pos.to_nat n + Pos.to_nat n)%nat by lia.
    rewrite Nat.iter_add. reflexivity.
  - reflexivity.
Qed.

(** Shifting out a zero bit loses nothing. *)
Lemma shr_1_double (m : Z) : shr_1 (exact_record (2 * m)) = exact_record m.
Proof. destruct m; reflexivity. Qed.

Lemma iter_shr_1_exact (k : nat) :
  forall m, Nat.iter k shr_1 (exact_record (m * 2 ^ Z.of_nat k)) = exact_record m.
Proof.
  induction k as [| k IH]; intros m.
  - cbn. now rewrite Z.mul_1_r.
  - rewrite Nat.iter_succ, Nat2Z.inj_succ, Z.pow_succ_r by lia.
    replace (m * (2 * 2 ^ Z.of_nat k)) with (2 * m * 2 ^ Z.of_nat k) by lia.
    rewrite IH. apply shr_1_double.
Qed.

Lemma shr_exact (m e n : Z) :
  0 <= n -> shr (exact_record (m * 2 ^ n)) e n = (exact_record m, e + n).
Proof.
  intros Hn. destruct n as [| p | p]; [| | lia].
  - cbn. now rewrite Z.mul_1_r, Z.add_0_r.
  - cbn [shr]. rewrite iter_pos_nat.
    rewrite <- (positive_nat_Z p) at 1. now rewrite iter_shr_1_exact.
Qed.

(** Rounding a value that fits 53 bits, given with [t] spare low zero bits,
    returns it normalised and unchanged. *)
Lemma binary_round_aux_exact (sx : bool) (mq : positive) (t : Z) :
  let dq := Zpos (digits2_pos mq) in
  dq <= 53 -> 0 <= t ->
  binary_round_aux prec emax sx (Zpos mq * 2 ^ (53 - dq + t)) (dq - 53 - t) loc_Exact
  = S754_finite sx (Z.to_pos (Zpos mq * 2 ^ (53 - dq))) (dq - 53).
Proof.
  intros dq Hdq Ht.
  assert (Hdq0 : 0 < dq) by (unfold dq; lia).
  assert (Hpos : 0 < Zpos mq * 2 ^ (53 - dq)).
  { apply Z.mul_pos_pos; [lia | apply Z.pow_pos_nonneg; lia]. }
  unfold binary_round_aux, shr_fexp.
  rewrite (digits2_shift mq (53 - dq + t)) by lia. fold dq.
  rewrite fexp_binary64.
  replace (Z.max (dq + (53 - dq + t) + (dq - 53 - t) - 53) (-1074) - (dq - 53 - t))
    with t by lia.
  rewrite Z.pow_add_r by lia. rewrite Z.mul_assoc.
  change (shr_record_of_loc ?m loc_Exact) with (exact_record m).
  rewrite shr_exact by exact Ht.
  cbn [exact_record shr_m loc_of_shr_record round_nearest_even].
  change (shr_record_of_loc ?m loc_Exact) with (exact_record m).
  rewrite (digits2_shift mq (53 - dq)) by lia. fold dq.
  rewrite fexp_binary64.
  replace (Z.max (dq + (53 - dq) + (dq - 53 - t + t) - 53) (-1074) - (dq - 53 - t + t))
    with 0 by lia.
  cbn [shr exact_record shr_m].
  destruct (Zpos mq * 2 ^ (53 - dq)) as [| m | m] eqn:E; try lia.
  replace (dq - 53 - t + t <=? emax - prec) with true
    by (symmetry; apply Z.leb_le; unfold emax, prec; lia).
  cbn [Z.to_pos]. f_equal. lia.
Qed.

(** A zero remainder is located exactly. *)
Lemma new_location_zero (nb : Z) : new_location nb 0 = loc_Exact.
Proof.
  unfold new_location, new_location_even, new_location_odd.
  now destruct (Z.even nb).
Qed.

Lemma div_eucl_exact (q b : Z) : 0 < b -> Z.div_eucl (q * b) b = (q, 0).
Proof.
  intros Hb.
  pose proof (Z.div_mul q b) as Hd. pose proof (Z.mod_mul q b) as Hm.
  unfold Z.div, Z.modulo in Hd, Hm.
  destruct (Z.div_eucl (q * b) b) as [q' r']. cbn in Hd, Hm.
  rewrite Hd, Hm by lia. reflexivity.
Qed.

(** The quotient of two integers, when it is itself an integer of at most
    53 bits, comes out exact. *)
Lemma SFdiv_exact_quotient (sa sb : bool) (ma mb mq : positive) :
  let dq := Zpos (digits2_pos mq) in
  ma = (mq * mb)%positive -> dq <= 53 ->
  SFdiv prec emax (S754_finite sa ma 0) (S754_finite sb mb 0)
  = S754_finite (xorb sa sb) (Z.to_pos (Zpos mq * 2 ^ (53 - dq))) (dq - 53).
Proof.
  intros dq -> Hdq.
  assert (Hdq0 : 0 < dq) by (unfold dq; lia).
  pose proof (digits2_mul mq mb) as Hd. cbv zeta in Hd. fold dq in Hd.
  unfold SFdiv, SFdiv_core_binary. cbn [Zdigits2].
  set (d1 := Zpos (digits2_pos (mq * mb))) in *.
  set (d2 := Zpos (digits2_pos mb)) in *.
  rewrite fexp_binary64.
  set (t := dq - (d1 - d2)).
  assert (Ht : 0 <= t <= 1) by (unfold t; lia).
  replace (Z.min (Z.max (d1 + 0 - (d2 + 0) - 53) (-1074)) (0 - 0))
    with (dq - 53 - t) by (unfold t; lia).
  replace (0 - 0 - (dq - 53 - t)) with (53 - dq + t) by lia.
  assert (Hm : match 53 - dq + t with
               | 0 => Zpos (mq * mb)
               | Zpos _ => Z.shiftl (Zpos (mq * mb)) (53 - dq + t)
               | Zneg _ => 0
               end = Zpos mq * 2 ^ (53 - dq + t) * Zpos mb).
  { destruct (53 - dq + t) as [| s | s] eqn:Es; [| | lia].
    - rewrite Pos2Z.inj_mul. cbn [Z.pow]. lia.
    - rewrite Z.shiftl_mul_pow2 by lia. rewrite Pos2Z.inj_mul. lia. }
  rewrite Hm, div_eucl_exact by lia.
  rewrite new_location_zero.
  apply binary_round_aux_exact; lia.
Qed.

(** Scaling by [2^k] and back, over the rationals. *)
Lemma Qscale (z k : Z) :
  0 <= k -> (inject_Z (z * 2 ^ k) * Qpower 2 (- k) == inject_Z z)%Q.
Proof.
  intros Hk.
  rewrite inject_Z_mult, Zpower_Qpower, Qpower_opp by exact Hk.
  change (inject_Z 2) with 2%Q.
  field. apply Qpower_not_0. discriminate.
Qed.

Lemma float_is_scaled (s : bool) (mq : positive) :
  let dq := Zpos (digits2_pos mq) in
  dq <= 53 ->
  float_is (S754_finite s (Z.to_pos (Zpos mq * 2 ^ (53 - dq))) (dq - 53))
           (inject_Z (cond_Zopp s (Zpos mq))).
Proof.
  intros dq Hdq. eexists. split; [reflexivity |].
  assert (Hpos : 0 < Zpos mq * 2 ^ (53 - dq)).
  { apply Z.mul_pos_pos; [lia | apply Z.pow_pos_nonneg; lia]. }
  rewrite Z2Pos.id by exact Hpos.
  replace (dq - 53) with (- (53 - dq)) by lia.
  replace (cond_Zopp s (Zpos mq * 2 ^ (53 - dq)))
    with (cond_Zopp s (Zpos mq) * 2 ^ (53 - dq)) by (destruct s; cbn [cond_Zopp]; lia).
  apply Qscale. lia.
Qed.

Lemma digits2_le_53 (mq : positive) : Zpos mq < 2 ^ 53 -> Zpos (digits2_pos mq) <= 53.
Proof.
  intros H. pose proof (digits2_bounds mq) as [Hlo _].
  assert (Zpos (digits2_pos mq) - 1 < 53); [| lia].
  apply (Z.pow_lt_mono_r_iff 2); lia.
Qed.

(** [a / b] is exact when the quotient is an integer below [2^53] in
    magnitude. *)
Lemma int_true_divide_exact (a b q : Z) :
  b <> 0 -> a = q * b -> Z.abs q < 2 ^ 53 ->
  exists f, int_true_divide a b = Return f /\ float_is f (inject_Z q).
Proof.
  intros Hb Ha Hq.
  destruct (Z.eq_dec q 0) as [-> | Hq0].
  - subst a. exists (S754_zero (xorb (0 <? 0) (b <? 0))). split.
    + destruct b; [contradiction | reflexivity | reflexivity].
    + exists 0%Q. split; reflexivity.
  - set (mq := Z.to_pos (Z.abs q)).
    assert (Hmq : Zpos mq = Z.abs q) by (unfold mq; rewrite Z2Pos.id; lia).
    assert (Hdq : Zpos (digits2_pos mq) <= 53) by (apply digits2_le_53; lia).
    assert (Hquot : forall sa sb ma mb,
               Zpos ma = Z.abs a -> Zpos mb = Z.abs b ->
               q = cond_Zopp (xorb sa sb) (Zpos mq) ->
               exists f,
                 match SFdiv prec emax (S754_finite sa ma 0) (S754_finite sb mb 0) with
                 | S754_infinity _ => Raise OverflowError
                 | f => Return f
                 end = Return f /\ float_is f (inject_Z q)).
    { intros sa sb ma mb Hma Hmb Hs.
      rewrite (SFdiv_exact_quotient sa sb ma mb mq); [| | exact Hdq].
      - eexists. split; [reflexivity |]. rewrite Hs. now apply float_is_scaled.
      - apply Pos2Z.inj. rewrite Pos2Z.inj_mul, Hma, Hmb, Hmq, Ha. apply Z.abs_mul. }
    unfold int_true_divide.
    destruct a as [| ma | ma], b as [| mb | mb]; try contradiction; try lia;
      cbn [float_of_parts].
    + apply (Hquot false false); [reflexivity | reflexivity |]. cbn [xorb cond_Zopp]. lia.
    + apply (Hquot false true); [reflexivity | reflexivity |]. cbn [xorb cond_Zopp]. lia.
    + apply (Hquot true false); [reflexivity | reflexivity |]. cbn [xorb cond_Zopp]. lia.
    + apply (Hquot true true); [reflexivity | reflexivity |]. cbn [xorb cond_Zopp]. lia.
Qed.

(** The rounding steps keep a mantissa non-negative, so the result is
    never NaN. *)
Lemma shr_1_nonneg (mrs : shr_record) : 0 <= shr_m mrs -> 0 <= shr_m (shr_1 mrs).
Proof.
  destruct mrs as [m r s]. cbn [shr_m].
  destruct m as [| [p | p |] | p]; cbn; lia.
Qed.

Lemma shr_nonneg (mrs : shr_record) (e n : Z) :
  0 <= shr_m mrs -> 0 <= shr_m (fst (shr mrs e n)).
Proof.
  intros H. destruct n as [| p | p]; cbn [shr fst]; try exact H.
  rewrite iter_pos_nat.
  induction (Pos.to_nat p) as [| k IH]; [exact H |].
  rewrite Nat.iter_succ. now apply shr_1_nonneg.
Qed.

Lemma shr_fexp_nonneg (m e : Z) (l : location) :
  0 <= m -> 0 <= shr_m (fst (shr_fexp prec emax m e l)).
Proof.
  intros H. unfold shr_fexp. apply shr_nonneg.
  destruct l as [| []]; exact H.
Qed.

Lemma round_nearest_even_nonneg (m : Z) (l : location) :
  0 <= m -> 0 <= round_nearest_even m l.
Proof.
  intros H. destruct l as [| []]; cbn [round_nearest_even]; try lia.
  destruct (Z.even m); lia.
Qed.

(** Rounding ends in a number or in the infinity of its sign. *)
Lemma binary_round_aux_number (sx : bool) (mx ex : Z) (lx : location) :
  0 <= mx ->
  let f := binary_round_aux prec emax sx mx ex lx in
  is_number f = true \/ f = S754_infinity sx.
Proof.
  intros Hm. unfold binary_round_aux.
  pose proof (shr_fexp_nonneg mx ex lx Hm) as H1.
  destruct (shr_fexp prec emax mx ex lx) as [mrs' e']. cbn [fst] in H1.
  pose proof (shr_fexp_nonneg _ e' loc_Exact
                (round_nearest_even_nonneg _ (loc_of_shr_record mrs') H1)) as H2.
  destruct (shr_fexp prec emax _ e' loc_Exact) as [mrs'' e'']. cbn [fst] in H2.
  destruct (shr_m mrs'') as [| m | m]; [now left | | lia].
  destruct (e'' <=? emax - prec); [now left | now right].
Qed.

Lemma SFdiv_finite_number (sa sb : bool) (ma mb : positive) (ea eb : Z) :
  let f := SFdiv prec emax (S754_finite sa ma ea) (S754_finite sb mb eb) in
  is_number f = true \/ f = S754_infinity (xorb sa sb).
Proof.
  unfold SFdiv, SFdiv_core_binary.
  set (m' := match _ with 0 => Zpos ma | Zpos _ => _ | Zneg _ => 0 end).
  assert (Hm' : 0 <= m').
  { unfold m'. destruct (ea - eb - _) as [| s | s]; try lia.
    apply Z.shiftl_nonneg. lia. }
  pose proof (Z.div_pos m' (Zpos mb) Hm') as Hq.
  unfold Z.div in Hq.
  destruct (Z.div_eucl m' (Zpos mb)) as [q r]. cbn [fst] in Hq.
  apply binary_round_aux_number. apply Hq. lia.
Qed.

(** With a non-zero divisor, [a / b] returns a number or raises
    [OverflowError]. *)
Lemma int_true_divide_outcome (a b : Z) :
  b <> 0 ->
  (exists f, int_true_divide a b = Return f /\ is_number f = true)
  \/ int_true_divide a b = Raise OverflowError.
Proof.
  intros Hb. unfold int_true_divide.
  destruct b as [| mb | mb]; [contradiction | |];
    (destruct a as [| ma | ma]; [left; eexists; split; reflexivity | |]);
    cbn [float_of_parts].
  all: on_int_quotient ltac:(fun sa sb ma mb =>
         destruct (SFdiv_finite_number sa sb ma mb 0 0) as [H | H];
         [ destruct (SFdiv prec emax (S754_finite sa ma 0) (S754_finite sb mb 0));
           try discriminate H; left; eexists; split; reflexivity
         | cbv zeta in H; rewrite H; now right ]).
Qed.

(** On a non-negative mantissa, shifting right is dividing by two. *)
Lemma shr_1_half (mrs : shr_record) :
  0 <= shr_m mrs -> shr_m (shr_1 mrs) = shr_m mrs / 2.
Proof.
  destruct mrs as [m r s]. cbn [shr_m]. intros Hm.
  rewrite <- Z.div2_div.
  destruct m as [| [p | p |] | p]; try reflexivity. lia.
Qed.

Lemma iter_shr_1_div (k : nat) (mrs : shr_record) :
  0 <= shr_m mrs ->
  shr_m (Nat.iter k shr_1 mrs) = shr_m mrs / 2 ^ Z.of_nat k.
Proof.
  intros Hm. induction k as [| k IH].
  - cbn. now rewrite Z.div_1_r.
  - rewrite Nat.iter_succ, shr_1_half, IH.
    + rewrite Nat2Z.inj_succ, Z.pow_succ_r, Z.div_div by lia.
      f_equal. lia.
    + rewrite IH. apply Z.div_pos; [exact Hm | apply Z.pow_pos_nonneg; lia].
Qed.

Lemma shr_div (mrs : shr_record) (e n : Z) :
  0 <= shr_m mrs ->
  shr_m (fst (shr mrs e n)) = shr_m mrs / 2 ^ Z.max n 0
  /\ snd (shr mrs e n) = e + Z.max n 0.
Proof.
  intros Hm. destruct n as [| p | p]; cbn [shr fst snd Z.max Z.compare].
  - change (Z.max 0 0) with 0. cbn. rewrite Z.div_1_r. split; lia.
  - replace (Z.max (Zpos p) 0) with (Zpos p) by lia. split; [| reflexivity].
    rewrite iter_pos_nat, iter_shr_1_div by exact Hm.
    now rewrite positive_nat_Z.
  - replace (Z.max (Zneg p) 0) with 0 by lia. cbn. rewrite Z.div_1_r. split; lia.
Qed.

Lemma shr_fexp_div (m e : Z) (l : location) :
  0 <= m ->
  let k := Z.max (fexp prec emax (Zdigits2 m + e) - e) 0 in
  shr_m (fst (shr_fexp prec emax m e l)) = m / 2 ^ k
  /\ snd (shr_fexp prec emax m e l) = e + k.
Proof.
  intros Hm k. unfold shr_fexp.
  assert (Hr : shr_m (shr_record_of_loc m l) = m) by (destruct l as [| []]; reflexivity).
  rewrite <- Hr at 3. apply shr_div. now rewrite Hr.
Qed.

(** Rounding moves a mantissa up by at most one. *)
Lemma round_nearest_even_bounds (m : Z) (l : location) :
  m <= round_nearest_even m l <= m + 1.
Proof.
  destruct l as [| []]; cbn [round_nearest_even]; try lia.
  destruct (Z.even m); lia.
Qed.

(** Digit counts against powers of two. *)
Lemma Zdigits2_upper (m k : Z) : 0 <= k -> 0 <= m < 2 ^ k -> Zdigits2 m <= k.
Proof.
  intros Hk [Hm0 Hm]. destruct m as [| p | p]; cbn [Zdigits2]; try lia.
  pose proof (digits2_bounds p) as [Hlo _].
  assert (Zpos (digits2_pos p) - 1 < k); [| lia].
  apply (Z.pow_lt_mono_r_iff 2); lia.
Qed.

Lemma Zdigits2_lower (m k : Z) : 0 <= k -> 2 ^ k <= m -> k < Zdigits2 m.
Proof.
  intros Hk Hm.
  assert (0 < 2 ^ k) by (apply Z.pow_pos_nonneg; lia).
  destruct m as [| p | p]; cbn [Zdigits2]; try lia.
  pose proof (digits2_bounds p) as [_ Hhi].
  apply (Z.pow_lt_mono_r_iff 2); lia.
Qed.

(** A value below [2^1023] rounds to a number. *)
Lemma binary_round_aux_no_overflow (sx : bool) (mx ex : Z) (lx : location) :
  ex <= 971 -> 0 <= mx < 2 ^ (1023 - ex) ->
  is_number (binary_round_aux prec emax sx mx ex lx) = true.
Proof.
  intros Hex [Hm0 Hm].
  pose proof (Zdigits2_upper mx (1023 - ex) ltac:(lia) (conj Hm0 Hm)) as Hd.
  unfold binary_round_aux.
  pose proof (shr_fexp_div mx ex lx Hm0) as [H1m H1e]. cbv zeta in H1m, H1e.
  rewrite fexp_binary64 in H1m, H1e.
  set (k1 := Z.max (Z.max (Zdigits2 mx + ex - 53) (-1074) - ex) 0) in *.
  destruct (shr_fexp prec emax mx ex lx) as [mrs1 e1]. cbn [fst snd] in H1m, H1e.
  assert (Hk1 : 0 <= k1 <= 1023 - ex) by (unfold k1; lia).
  assert (Hp1 : 0 < 2 ^ k1) by (apply Z.pow_pos_nonneg; lia).
  assert (H1lo : 0 <= shr_m mrs1) by (rewrite H1m; apply Z.div_pos; lia).
  assert (H1hi : shr_m mrs1 < 2 ^ (1023 - e1)).
  { rewrite H1m. apply Z.div_lt_upper_bound; [exact Hp1 |].
    rewrite <- Z.pow_add_r by lia.
    replace (k1 + (1023 - e1)) with (1023 - ex) by lia. exact Hm. }
  pose proof (round_nearest_even_bounds (shr_m mrs1) (loc_of_shr_record mrs1)) as Hr.
  set (m1 := round_nearest_even (shr_m mrs1) (loc_of_shr_record mrs1)) in *.
  assert (Hm1 : 0 <= m1 < 2 ^ (1024 - e1)).
  { split; [lia |].
    replace (1024 - e1) with (Z.succ (1023 - e1)) by lia.
    rewrite Z.pow_succ_r by lia. lia. }
  pose proof (Zdigits2_upper m1 (1024 - e1) ltac:(lia) Hm1) as Hd1.
  pose proof (shr_fexp_div m1 e1 loc_Exact (proj1 Hm1)) as [H2m H2e].
  cbv zeta in H2m, H2e. rewrite fexp_binary64 in H2m, H2e.
  destruct (shr_fexp prec emax m1 e1 loc_Exact) as [mrs2 e2]. cbn [fst snd] in H2m, H2e.
  destruct (shr_m mrs2) as [| m | m]; [reflexivity | |].
  - replace (e2 <=? emax - prec) with true; [reflexivity |].
    symmetry. apply Z.leb_le. unfold emax, prec. lia.
  - exfalso.
    assert (0 <= m1 / 2 ^ Z.max (Z.max (Zdigits2 m1 + e1 - 53) (-1074) - e1) 0).
    { apply Z.div_pos; [lia | apply Z.pow_pos_nonneg; lia]. }
    lia.
Qed.

(** A value of [2^1024] or more rounds to infinity. *)
Lemma binary_round_aux_overflow (sx : bool) (mx ex : Z) (lx : location) :
  -1074 <= ex <= 971 -> 2 ^ (1024 - ex) <= mx ->
  binary_round_aux prec emax sx mx ex lx = S754_infinity sx.
Proof.
  intros Hex Hm.
  assert (Hm0 : 0 < mx).
  { assert (0 < 2 ^ (1024 - ex)) by (apply Z.pow_pos_nonneg; lia). lia. }
  pose proof (Zdigits2_lower mx (1024 - ex) ltac:(lia) Hm) as Hd.
  unfold binary_round_aux.
  pose proof (shr_fexp_div mx ex lx ltac:(lia)) as [H1m H1e]. cbv zeta in H1m, H1e.
  rewrite fexp_binary64 in H1m, H1e.
  replace (Z.max (Z.max (Zdigits2 mx + ex - 53) (-1074) - ex) 0)
    with (Zdigits2 mx - 53) in H1m, H1e by lia.
  destruct (shr_fexp prec emax mx ex lx) as [mrs1 e1]. cbn [fst snd] in H1m, H1e.
  set (d := Zdigits2 mx) in *.
  assert (Hbounds : 2 ^ (d - 1) <= mx < 2 ^ d).
  { unfold d. destruct mx as [| p | p]; try lia. apply digits2_bounds. }
  assert (Hp : 0 < 2 ^ (d - 53)) by (apply Z.pow_pos_nonneg; lia).
  assert (H1 : 2 ^ 52 <= shr_m mrs1 < 2 ^ 53).
  { rewrite H1m. split.
    - apply Z.div_le_lower_bound; [exact Hp |].
      rewrite <- Z.pow_add_r by lia.
      replace (d - 53 + 52) with (d - 1) by lia. lia.
    - apply Z.div_lt_upper_bound; [exact Hp |].
      rewrite <- Z.pow_add_r by lia.
      replace (d - 53 + 53) with d by lia. lia. }
  pose proof (round_nearest_even_bounds (shr_m mrs1) (loc_of_shr_record mrs1)) as Hr.
  set (m1 := round_nearest_even (shr_m mrs1) (loc_of_shr_record mrs1)) in *.
  assert (Hm1 : 2 ^ 52 <= m1 < 2 ^ 54) by (change (2 ^ 54) with (2 * 2 ^ 53); lia).
  pose proof (Zdigits2_lower m1 52 ltac:(lia) (proj1 Hm1)) as Hd1lo.
  pose proof (Zdigits2_upper m1 54 ltac:(lia) ltac:(lia)) as Hd1hi.
  pose proof (shr_fexp_div m1 e1 loc_Exact ltac:(lia)) as [H2m H2e].
  cbv zeta in H2m, H2e. rewrite fexp_binary64 in H2m, H2e.
  replace (Z.max (Z.max (Zdigits2 m1 + e1 - 53) (-1074) - e1) 0)
    with (Zdigits2 m1 - 53) in H2m, H2e by lia.
  destruct (shr_fexp prec emax m1 e1 loc_Exact) as [mrs2 e2]. cbn [fst snd] in H2m, H2e.
  assert (H2 : 0 < shr_m mrs2).
  { rewrite H2m. apply Z.div_str_pos. split; [apply Z.pow_pos_nonneg; lia |].
    apply Z.le_trans with (2 ^ 1); [apply Z.pow_le_mono_r; lia |].
    change (2 ^ 52) with 4503599627370496 in Hm1. change (2 ^ 1) with 2. lia. }
  destruct (shr_m mrs2) as [| m | m]; try lia.
  replace (e2 <=? emax - prec) with false; [reflexivity |].
  symmetry. apply Z.leb_gt. unfold emax, prec. lia.
Qed.

(** The quotient and exponent [SFdiv] hands to the rounding step, for two
    integers. *)
Lemma SFdiv_core_int (ma mb : positive) :
  let e0 := div_exponent ma mb in
  exists r,
    SFdiv_core_binary prec emax (Zpos ma) 0 (Zpos mb) 0
    = (Zpos ma * 2 ^ (- e0) / Zpos mb, e0, new_location (Zpos mb) r).
Proof.
  intros e0. unfold SFdiv_core_binary. cbn [Zdigits2].
  rewrite fexp_binary64.
  replace (Z.min (Z.max (Zpos (digits2_pos ma) + 0 - (Zpos (digits2_pos mb) + 0) - 53)
                    (-1074)) (0 - 0))
    with e0 by (unfold e0, div_exponent; lia).
  assert (He0 : -1074 <= e0 <= 0) by (unfold e0, div_exponent; lia).
  assert (Hm : match 0 - 0 - e0 with
               | 0 => Zpos ma
               | Zpos _ => Z.shiftl (Zpos ma) (0 - 0 - e0)
               | Zneg _ => 0
               end = Zpos ma * 2 ^ (- e0)).
  { replace (0 - 0 - e0) with (- e0) by lia.
    destruct (- e0) as [| s | s] eqn:Es; [| | lia].
    - cbn [Z.pow]. lia.
    - now rewrite Z.shiftl_mul_pow2 by lia. }
  rewrite Hm.
  exists (snd (Z.div_eucl (Zpos ma * 2 ^ (- e0)) (Zpos mb))).
  unfold Z.div. now destruct (Z.div_eucl _ _).
Qed.

(** Quotients below [2^1023] give a number, quotients from [2^1024] on
    overflow. *)
Lemma SFdiv_int_no_overflow (sa sb : bool) (ma mb : positive) :
  Zpos ma < 2 ^ 1023 * Zpos mb ->
  is_number (SFdiv prec emax (S754_finite sa ma 0) (S754_finite sb mb 0)) = true.
Proof.
  intros H. unfold SFdiv.
  destruct (SFdiv_core_int ma mb) as (r & ->).
  set (e0 := div_exponent ma mb).
  assert (He0 : -1074 <= e0 <= 0) by (unfold e0, div_exponent; lia).
  assert (Hp : 0 < 2 ^ (- e0)) by (apply Z.pow_pos_nonneg; lia).
  apply binary_round_aux_no_overflow; [lia |]. split.
  - apply Z.div_pos; lia.
  - apply Z.div_lt_upper_bound; [lia |].
    replace (1023 - e0) with (1023 + - e0) by lia.
    rewrite Z.pow_add_r by lia. nia.
Qed.

Lemma SFdiv_int_overflow (sa sb : bool) (ma mb : positive) :
  2 ^ 1024 * Zpos mb <= Zpos ma ->
  SFdiv prec emax (S754_finite sa ma 0) (S754_finite sb mb 0)
  = S754_infinity (xorb sa sb).
Proof.
  intros H. unfold SFdiv.
  destruct (SFdiv_core_int ma mb) as (r & ->).
  assert (E : div_exponent ma mb = 0).
  { pose proof (digits2_bounds ma) as [_ Ha].
    pose proof (digits2_bounds mb) as [Hb _].
    assert (Hlt : 1024 + (Zpos (digits2_pos mb) - 1) < Zpos (digits2_pos ma)).
    { apply (Z.pow_lt_mono_r_iff 2); [lia | lia |].
      rewrite Z.pow_add_r by lia.
      assert (0 < 2 ^ 1024) by (apply Z.pow_pos_nonneg; lia). nia. }
    unfold div_exponent. lia. }
  rewrite E. cbn [Z.opp Z.pow]. rewrite Z.mul_1_r.
  apply binary_round_aux_overflow; [lia |].
  replace (1024 - 0) with 1024 by lia.
  apply Z.div_le_lower_bound; lia.
Qed.

Lemma int_true_divide_no_overflow (a b : Z) :
  b <> 0 -> Z.abs a < 2 ^ 1023 * Z.abs b ->
  exists f, int_true_divide a b = Return f /\ is_number f = true.
Proof.
  intros Hb H. unfold int_true_divide.
  destruct b as [| mb | mb]; [contradiction | |];
    (destruct a as [| ma | ma]; [eexists; split; reflexivity | |]);
    cbn [float_of_parts].
  all: on_int_quotient ltac:(fun sa sb ma mb =>
         pose proof (SFdiv_int_no_overflow sa sb ma mb H) as Hn;
         destruct (SFdiv prec emax (S754_finite sa ma 0) (S754_finite sb mb 0));
         try discriminate Hn; eexists; split; reflexivity).
Qed.

Lemma int_true_divide_overflow (a b : Z) :
  b <> 0 -> 2 ^ 1024 * Z.abs b <= Z.abs a ->
  int_true_divide a b = Raise OverflowError.
Proof.
  intros Hb H. unfold int_true_divide.
  assert (Hp : 0 < 2 ^ 1024) by (apply Z.pow_pos_nonneg; lia).
  destruct b as [| mb | mb]; [contradiction | |];
    (destruct a as [| ma | ma]; [cbn [Z.abs] in H; lia | |]);
    cbn [float_of_parts].
  all: on_int_quotient ltac:(fun sa sb ma mb =>
         rewrite (SFdiv_int_overflow sa sb ma mb H); reflexivity).
Qed.

(** Shifting to the stored exponent keeps a positive mantissa positive. *)
Lemma shr_fexp_pos (m e : Z) (l : location) :
  1 <= m -> -1074 <= e -> 1 <= shr_m (fst (shr_fexp prec emax m e l)).
Proof.
  intros Hm He.
  pose proof (shr_fexp_div m e l ltac:(lia)) as [Hd _]. cbv zeta in Hd.
  rewrite fexp_binary64 in Hd. rewrite Hd.
  set (k := Z.max (Z.max (Zdigits2 m + e - 53) (-1074) - e) 0).
  assert (Hdig : 2 ^ (Zdigits2 m - 1) <= m /\ 1 <= Zdigits2 m).
  { destruct m as [| p | p]; try lia. cbn [Zdigits2].
    pose proof (digits2_bounds p). lia. }
  assert (Hk : 0 <= k <= Zdigits2 m - 1) by (unfold k; lia).
  apply Z.div_le_lower_bound; [apply Z.pow_pos_nonneg; lia |].
  rewrite Z.mul_1_r.
  apply Z.le_trans with (2 ^ (Zdigits2 m - 1)); [apply Z.pow_le_mono_r; lia | lia].
Qed.

(** One shift step, as bounds: the mantissa [m'] and exponent [e'] after
    the shift bracket the mantissa before it. *)
Lemma shr_fexp_bracket (m e : Z) (l : location) :
  0 <= m ->
  let m' := shr_m (fst (shr_fexp prec emax m e l)) in
  let e' := snd (shr_fexp prec emax m e l) in
  exists k, 0 <= k /\ e' = e + k /\ m' * 2 ^ k <= m < (m' + 1) * 2 ^ k.
Proof.
  intros Hm m' e'.
  pose proof (shr_fexp_div m e l Hm) as [Hd He]. cbv zeta in Hd, He.
  set (k := Z.max (fexp prec emax (Zdigits2 m + e) - e) 0) in *.
  exists k. split; [unfold k; lia |]. split; [exact He |].
  unfold m'. rewrite Hd.
  assert (Hp : 0 < 2 ^ k) by (apply Z.pow_pos_nonneg; unfold k; lia).
  pose proof (Z.mul_div_le m (2 ^ k) Hp).
  pose proof (Z.mul_succ_div_gt m (2 ^ k) Hp).
  lia.
Qed.

(** Rounding a mantissa that brackets the value [N/D] gives a float within
    one unit in the last place of [N/D]; only a zero mantissa gives zero. *)
Lemma binary_round_aux_faithful (sx : bool) (mx ex : Z) (lx : location) (N D : Z) :
  0 <= mx -> -1074 <= ex -> 0 < D ->
  mx * 2 ^ (ex + 1074) * D <= N < (mx + 1) * 2 ^ (ex + 1074) * D ->
  match binary_round_aux prec emax sx mx ex lx with
  | S754_zero s => s = sx /\ mx = 0
  | S754_finite s m e =>
      s = sx /\ ex <= e
      /\ (Zpos m - 1) * 2 ^ (e + 1074) * D <= N <= (Zpos m + 1) * 2 ^ (e + 1074) * D
  | S754_infinity _ => True
  | S754_nan => False
  end.
Proof.
  intros Hm0 Hex HD [Hlo Hhi].
  unfold binary_round_aux.
  destruct (shr_fexp_bracket mx ex lx Hm0) as (k1 & Hk1 & He1 & Hb1).
  pose proof (shr_fexp_nonneg mx ex lx Hm0) as Hn1.
  assert (Hpos1 : 1 <= mx -> 1 <= shr_m (fst (shr_fexp prec emax mx ex lx)))
    by (intros H; now apply shr_fexp_pos).
  destruct (shr_fexp prec emax mx ex lx) as [mrs1 e1].
  cbn [fst snd] in He1, Hb1, Hn1, Hpos1.
  pose proof (round_nearest_even_bounds (shr_m mrs1) (loc_of_shr_record mrs1)) as Hr.
  set (m1 := round_nearest_even (shr_m mrs1) (loc_of_shr_record mrs1)) in *.
  assert (Hm1 : 0 <= m1) by lia.
  destruct (shr_fexp_bracket m1 e1 loc_Exact Hm1) as (k2 & Hk2 & He2 & Hb2).
  pose proof (shr_fexp_nonneg m1 e1 loc_Exact Hm1) as Hn2.
  assert (Hpos2 : 1 <= m1 -> 1 <= shr_m (fst (shr_fexp prec emax m1 e1 loc_Exact)))
    by (intros H; apply shr_fexp_pos; lia).
  destruct (shr_fexp prec emax m1 e1 loc_Exact) as [mrs2 e2].
  cbn [fst snd] in He2, Hb2, Hn2, Hpos2.
  destruct (shr_m mrs2) as [| m | m] eqn:Em2; [| | lia].
  - split; [reflexivity |]. lia.
  - destruct (e2 <=? emax - prec); [| exact I].
    split; [reflexivity |]. split; [lia |].
    subst e1 e2.
    replace (ex + k1 + k2 + 1074) with (k2 + (k1 + (ex + 1074))) by lia.
    rewrite !Z.pow_add_r by lia.
    set (P := 2 ^ (ex + 1074)) in *.
    assert (HP : 0 < P) by (apply Z.pow_pos_nonneg; lia).
    assert (HK1 : 0 < 2 ^ k1) by (apply Z.pow_pos_nonneg; lia).
    assert (HK2 : 0 < 2 ^ k2) by (apply Z.pow_pos_nonneg; lia).
    set (K1 := 2 ^ k1) in *. set (K2 := 2 ^ k2) in *.
    set (m1s := shr_m mrs1) in *.
    assert (HPD : 0 < P * D) by nia.
    assert (Hlow : (Zpos m - 1) * K2 * K1 <= mx) by nia.
    assert (Hupp : mx + 1 <= (Zpos m + 1) * K2 * K1) by nia.
    split.
    + apply Z.le_trans with (mx * P * D); [| exact Hlo].
      replace ((Zpos m - 1) * (K2 * (K1 * P)) * D)
        with ((Zpos m - 1) * K2 * K1 * (P * D)) by ring.
      replace (mx * P * D) with (mx * (P * D)) by ring.
      apply Z.mul_le_mono_nonneg_r; lia.
    + apply Z.le_trans with ((mx + 1) * P * D); [lia |].
      replace ((Zpos m + 1) * (K2 * (K1 * P)) * D)
        with ((Zpos m + 1) * K2 * K1 * (P * D)) by ring.
      replace ((mx + 1) * P * D) with ((mx + 1) * (P * D)) by ring.
      apply Z.mul_le_mono_nonneg_r; lia.
Qed.

(** The quotient handed to the rounding step brackets the scaled true
    quotient, and has a leading bit unless the exponent sits at the least
    one. *)
Lemma SFdiv_core_int_bracket (ma mb : positive) :
  let e0 := div_exponent ma mb in
  let q := Zpos ma * 2 ^ (- e0) / Zpos mb in
  -1074 <= e0 <= 0
  /\ 0 <= q
  /\ q * Zpos mb <= Zpos ma * 2 ^ (- e0) < (q + 1) * Zpos mb
  /\ (e0 = -1074 \/ 1 <= q).
Proof.
  intros e0 q.
  assert (He0 : -1074 <= e0 <= 0) by (unfold e0, div_exponent; lia).
  assert (Hp : 0 < 2 ^ (- e0)) by (apply Z.pow_pos_nonneg; lia).
  split; [exact He0 |].
  split; [apply Z.div_pos; lia |].
  split.
  - pose proof (Z.mul_div_le (Zpos ma * 2 ^ (- e0)) (Zpos mb) ltac:(lia)).
    pose proof (Z.mul_succ_div_gt (Zpos ma * 2 ^ (- e0)) (Zpos mb) ltac:(lia)).
    fold q in H, H0. lia.
  - destruct (Z.eq_dec e0 (-1074)) as [| Hne]; [now left | right].
    assert (Hs : 53 + Zpos (digits2_pos mb) - Zpos (digits2_pos ma) <= - e0)
      by (unfold e0, div_exponent in *; lia).
    pose proof (digits2_bounds ma) as [Ha _].
    pose proof (digits2_bounds mb) as [_ Hb].
    apply Z.div_le_lower_bound; [lia |]. rewrite Z.mul_1_r.
    apply Z.le_trans with (2 ^ Zpos (digits2_pos mb)); [lia |].
    apply Z.le_trans with (2 ^ (Zpos (digits2_pos ma) - 1) * 2 ^ (- e0));
      [| apply Z.mul_le_mono_nonneg_r; lia].
    rewrite <- Z.pow_add_r by lia.
    apply Z.pow_le_mono_r; lia.
Qed.

(** The same for the division of two integers. *)
Lemma SFdiv_int_faithful (sa sb : bool) (ma mb : positive) :
  match SFdiv prec emax (S754_finite sa ma 0) (S754_finite sb mb 0) with
  | S754_zero s => s = xorb sa sb /\ Zpos ma * 2 ^ 1074 < Zpos mb
  | S754_finite s m e =>
      s = xorb sa sb /\ -1074 <= e
      /\ (Zpos m - 1) * 2 ^ (e + 1074) * Zpos mb
         <= Zpos ma * 2 ^ 1074
         <= (Zpos m + 1) * 2 ^ (e + 1074) * Zpos mb
  | S754_infinity _ => True
  | S754_nan => False
  end.
Proof.
  unfold SFdiv.
  destruct (SFdiv_core_int ma mb) as (r & ->).
  destruct (SFdiv_core_int_bracket ma mb) as (He0 & Hq & Hb & Hlead).
  set (e0 := div_exponent ma mb) in *.
  set (q := Zpos ma * 2 ^ (- e0) / Zpos mb) in *.
  assert (Hscale : 2 ^ 1074 = 2 ^ (- e0) * 2 ^ (e0 + 1074)).
  { rewrite <- Z.pow_add_r by lia. f_equal. lia. }
  assert (HP : 0 < 2 ^ (e0 + 1074)) by (apply Z.pow_pos_nonneg; lia).
  pose proof (binary_round_aux_faithful (xorb sa sb) q e0
                (new_location (Zpos mb) r) (Zpos ma * 2 ^ 1074) (Zpos mb)
                Hq ltac:(lia) ltac:(lia)) as H.
  assert (Hbr : q * 2 ^ (e0 + 1074) * Zpos mb <= Zpos ma * 2 ^ 1074
                < (q + 1) * 2 ^ (e0 + 1074) * Zpos mb).
  { rewrite Hscale. nia. }
  specialize (H Hbr).
  destruct (binary_round_aux prec emax (xorb sa sb) q e0 (new_location (Zpos mb) r))
    as [s | s | | s m e]; try exact H.
  - destruct H as [-> ->]. split; [reflexivity |].
    destruct Hlead as [-> | Hl]; [| lia].
    cbn [Z.add Z.opp Z.pow_pos] in Hbr. change (2 ^ (-1074 + 1074)) with 1 in Hbr. lia.
  - destruct H as (-> & He & Hbnd). split; [reflexivity |]. split; [lia | exact Hbnd].
Qed.

(** With a non-zero divisor, the float [a / b] returns is within one unit
    in the last place of the quotient. *)
Lemma int_true_divide_faithful (a b : Z) (f : spec_float) :
  b <> 0 -> int_true_divide a b = Return f -> within_one_ulp f a b.
Proof.
  intros Hb. unfold int_true_divide.
  destruct b as [| mb | mb]; [contradiction | |];
    (destruct a as [| ma | ma];
     [intros [= <-]; cbn; split; [reflexivity | lia] | |]);
    cbn [float_of_parts].
  all: on_int_quotient ltac:(fun sa sb ma mb =>
         pose proof (SFdiv_int_faithful sa sb ma mb) as H;
         destruct (SFdiv prec emax (S754_finite sa ma 0) (S754_finite sb mb 0));
         intros [= <-]; exact H).
Qed.

(** The bound read over the rationals: the quotient lies between the
    float's two neighbours at its own exponent. *)
Lemma within_one_ulp_rational (s : bool) (m : positive) (e a b : Z) :
  b <> 0 -> within_one_ulp (S754_finite s m e) a b ->
  (inject_Z (Zpos m - 1) * 2 ^ e
   <= inject_Z (Z.abs a) / inject_Z (Z.abs b)
   <= inject_Z (Zpos m + 1) * 2 ^ e)%Q.
Proof.
  intros Hb (_ & He & Hlo & Hhi).
  assert (HB : (0 < inject_Z (Z.abs b))%Q).
  { change 0%Q with (inject_Z 0). rewrite <- Zlt_Qlt. lia. }
  assert (HT : (0 < 2 ^ 1074)%Q) by (apply Qpower_0_lt; reflexivity).
  assert (Hpow : (inject_Z (2 ^ (e + 1074)) == 2 ^ e * 2 ^ 1074)%Q).
  { rewrite Zpower_Qpower by lia. change (inject_Z 2) with 2%Q.
    apply Qpower_plus. discriminate. }
  assert (HT' : (inject_Z (2 ^ 1074) == 2 ^ 1074)%Q).
  { rewrite Zpower_Qpower by lia. reflexivity. }
  rewrite Zle_Qle in Hlo, Hhi.
  rewrite !inject_Z_mult, Hpow, HT' in Hlo, Hhi.
  split.
  - apply Qle_shift_div_l; [exact HB |].
    apply (Qmult_lt_0_le_reg_r _ _ (2 ^ 1074)); [exact HT |].
    setoid_replace (inject_Z (Zpos m - 1) * 2 ^ e * inject_Z (Z.abs b) * 2 ^ 1074)%Q
      with (inject_Z (Zpos m - 1) * (2 ^ e * 2 ^ 1074) * inject_Z (Z.abs b))%Q by ring.
    exact Hlo.
  - apply Qle_shift_div_r; [exact HB |].
    apply (Qmult_lt_0_le_reg_r _ _ (2 ^ 1074)); [exact HT |].
    setoid_replace (inject_Z (Zpos m + 1) * 2 ^ e * inject_Z (Z.abs b) * 2 ^ 1074)%Q
      with (inject_Z (Zpos m + 1) * (2 ^ e * 2 ^ 1074) * inject_Z (Z.abs b))%Q by ring.
    exact Hhi.
Qed.

(** Digit counts of integers: bounds, monotonicity, and what a right shift
    does to them. *)
Lemma Zdigits2_bounds (m : Z) :
  1 <= m -> 1 <= Zdigits2 m /\ 2 ^ (Zdigits2 m - 1) <= m < 2 ^ Zdigits2 m.
Proof.
  intros Hm. destruct m as [| p | p]; try lia. cbn [Zdigits2].
  split; [lia | apply digits2_bounds].
Qed.

Lemma Zdigits2_nonneg (m : Z) : 0 <= Zdigits2 m.
Proof. destruct m; cbn [Zdigits2]; lia. Qed.

Lemma Zdigits2_le (m m' : Z) : 0 <= m <= m' -> Zdigits2 m <= Zdigits2 m'.
Proof.
  intros [H0 Hle]. destruct (Z.eq_dec m 0) as [-> | Hne].
  - apply Zdigits2_nonneg.
  - destruct (Zdigits2_bounds m ltac:(lia)) as (_ & Hlo & _).
    destruct (Zdigits2_bounds m' ltac:(lia)) as (Hd' & _ & Hhi).
    assert (Zdigits2 m - 1 < Zdigits2 m'); [| lia].
    apply (Z.pow_lt_mono_r_iff 2); lia.
Qed.

Lemma Zdigits2_shr (m k : Z) :
  0 <= k -> 1 <= m / 2 ^ k -> Zdigits2 (m / 2 ^ k) = Zdigits2 m - k.
Proof.
  intros Hk Hq.
  assert (Hp : 0 < 2 ^ k) by (apply Z.pow_pos_nonneg; lia).
  pose proof (Z.mul_div_le m (2 ^ k) Hp) as Hmul.
  assert (Hm : 1 <= m) by nia.
  destruct (Zdigits2_bounds m Hm) as (Hd & Hlo & Hhi).
  set (d := Zdigits2 m) in *.
  assert (Hkd : k < d) by (apply (Z.pow_lt_mono_r_iff 2); nia).
  destruct (m / 2 ^ k) as [| p | p] eqn:E; try lia.
  cbn [Zdigits2]. apply digits2_unique. rewrite <- E. split.
  - apply Z.div_le_lower_bound; [exact Hp |].
    rewrite <- Z.pow_add_r by lia. replace (k + (d - k - 1)) with (d - 1) by lia. exact Hlo.
  - apply Z.div_lt_upper_bound; [exact Hp |].
    rewrite <- Z.pow_add_r by lia. replace (k + (d - k)) with d by lia. exact Hhi.
Qed.

(** A mantissa too short to survive a shift sits at the least exponent. *)
Lemma shr_to_zero_exponent (m e k : Z) :
  0 <= m -> k = Z.max (Z.max (Zdigits2 m + e - 53) (-1074) - e) 0 ->
  -1074 <= e -> m / 2 ^ k = 0 -> 1 <= m -> e + k = -1074.
Proof.
  intros Hm Hk He Hz H1.
  assert (Hp : 0 < 2 ^ k) by (apply Z.pow_pos_nonneg; lia).
  destruct (Zdigits2_bounds m H1) as (Hd & Hlo & _).
  assert (Hlt : m < 2 ^ k).
  { apply Z.div_small_iff in Hz; lia. }
  assert (Zdigits2 m - 1 < k) by (apply (Z.pow_lt_mono_r_iff 2); lia).
  lia.
Qed.

(** Rounding a mantissa that is not given with too few bits for its
    magnitude ends in a canonical float: 53 bits to the mantissa, or the
    least exponent. *)
Lemma binary_round_aux_valid (sx : bool) (mx ex : Z) (lx : location) :
  0 <= mx -> -1074 <= ex ->
  ex <= fexp prec emax (Zdigits2 mx + ex) ->
  valid_binary prec emax (binary_round_aux prec emax sx mx ex lx) = true.
Proof.
  intros Hm0 Hex Hin. rewrite fexp_binary64 in Hin.
  unfold binary_round_aux.
  pose proof (shr_fexp_div mx ex lx Hm0) as [H1m H1e]. cbv zeta in H1m, H1e.
  rewrite fexp_binary64 in H1m, H1e.
  set (k1 := Z.max (Z.max (Zdigits2 mx + ex - 53) (-1074) - ex) 0) in *.
  destruct (shr_fexp prec emax mx ex lx) as [mrs1 e1]. cbn [fst snd] in H1m, H1e.
  assert (Hk1 : 0 <= k1) by (unfold k1; lia).
  assert (Hp1 : 0 < 2 ^ k1) by (apply Z.pow_pos_nonneg; lia).
  assert (H1lo : 0 <= shr_m mrs1) by (rewrite H1m; apply Z.div_pos; lia).
  pose proof (round_nearest_even_bounds (shr_m mrs1) (loc_of_shr_record mrs1)) as Hr.
  set (m1 := round_nearest_even (shr_m mrs1) (loc_of_shr_record mrs1)) in *.
  (* the rounded mantissa is not short for its exponent either *)
  assert (Hin1 : 1 <= m1 -> e1 <= Z.max (Zdigits2 m1 + e1 - 53) (-1074)).
  { intros Hm1. destruct (Z.eq_dec (shr_m mrs1) 0) as [Hz | Hnz].
    - assert (1 <= mx -> e1 = -1074).
      { intros H. rewrite H1e. apply (shr_to_zero_exponent mx ex k1); lia. }
      destruct (Z.eq_dec mx 0) as [-> | Hmx]; [| lia].
      cbn [Zdigits2] in *. unfold k1 in *. lia.
    - assert (Hd : Zdigits2 (shr_m mrs1) = Zdigits2 mx - k1).
      { rewrite H1m. apply Zdigits2_shr; [exact Hk1 | rewrite <- H1m; lia]. }
      pose proof (Zdigits2_le (shr_m mrs1) m1 ltac:(lia)) as Hle.
      unfold k1 in *. lia. }
  pose proof (shr_fexp_div m1 e1 loc_Exact ltac:(lia)) as [H2m H2e].
  cbv zeta in H2m, H2e. rewrite fexp_binary64 in H2m, H2e.
  set (k2 := Z.max (Z.max (Zdigits2 m1 + e1 - 53) (-1074) - e1) 0) in *.
  destruct (shr_fexp prec emax m1 e1 loc_Exact) as [mrs2 e2]. cbn [fst snd] in H2m, H2e.
  destruct (shr_m mrs2) as [| m | m] eqn:Em2; try reflexivity.
  destruct (e2 <=? emax - prec) eqn:Ee; [| reflexivity].
  cbn [valid_binary]. unfold bounded. rewrite Ee, andb_true_r.
  unfold canonical_mantissa. apply Z.eqb_eq. rewrite fexp_binary64.
  assert (Hk2 : 0 <= k2) by (unfold k2; lia).
  assert (Hm1 : 1 <= m1).
  { destruct (Z.le_gt_cases 1 m1) as [H | H]; [exact H |].
    assert (m1 = 0) by lia. subst m1. rewrite H0 in H2m. rewrite Z.div_0_l in H2m; [lia |].
    apply Z.pow_nonzero; lia. }
  assert (Hd2 : Zdigits2 (Zpos m) = Zdigits2 m1 - k2).
  { rewrite H2m. apply Zdigits2_shr; [exact Hk2 | rewrite <- H2m; lia]. }
  cbn [Zdigits2] in Hd2. rewrite Hd2.
  specialize (Hin1 Hm1). unfold k2 in *. lia.
Qed.

(** The quotient handed to the rounding step has all the bits its magnitude
    calls for. *)
Lemma SFdiv_core_int_precise (ma mb : positive) :
  let e0 := div_exponent ma mb in
  let q := Zpos ma * 2 ^ (- e0) / Zpos mb in
  e0 <= fexp prec emax (Zdigits2 q + e0).
Proof.
  intros e0 q. rewrite fexp_binary64.
  destruct (Z.eq_dec e0 (-1074)) as [E | Hne]; [lia |].
  pose proof (digits2_bounds ma) as [Ha _].
  pose proof (digits2_bounds mb) as [_ Hb].
  set (d1 := Zpos (digits2_pos ma)) in *. set (d2 := Zpos (digits2_pos mb)) in *.
  assert (He0 : e0 <= d1 - d2 - 53 /\ e0 <= 0).
  { subst e0 d1 d2. unfold div_exponent in *. lia. }
  assert (Hq : 2 ^ (d1 - 1 - e0 - d2) <= q).
  { unfold q. apply Z.div_le_lower_bound; [lia |].
    apply Z.le_trans with (2 ^ d2 * 2 ^ (d1 - 1 - e0 - d2)).
    - apply Z.mul_le_mono_nonneg_r; [apply Z.pow_nonneg; lia | lia].
    - rewrite <- Z.pow_add_r by lia.
      replace (d2 + (d1 - 1 - e0 - d2)) with ((d1 - 1) + - e0) by lia.
      rewrite Z.pow_add_r by lia.
      apply Z.mul_le_mono_nonneg_r; [apply Z.pow_nonneg; lia | lia]. }
  pose proof (Zdigits2_lower q (d1 - 1 - e0 - d2) ltac:(lia) Hq). lia.
Qed.

Lemma SFdiv_int_valid (sa sb : bool) (ma mb : positive) :
  valid_binary prec emax
    (SFdiv prec emax (S754_finite sa ma 0) (S754_finite sb mb 0)) = true.
Proof.
  unfold SFdiv. destruct (SFdiv_core_int ma mb) as (r & ->).
  destruct (SFdiv_core_int_bracket ma mb) as (He0 & Hq & _ & _).
  apply binary_round_aux_valid; [exact Hq | lia | apply SFdiv_core_int_precise].
Qed.

(** The float [a / b] returns is canonical. *)
Lemma int_true_divide_valid (a b : Z) (f : spec_float) :
  int_true_divide a b = Return f -> valid_binary prec emax f = true.
Proof.
  unfold int_true_divide.
  destruct b as [| mb | mb]; [discriminate | |];
    (destruct a as [| ma | ma]; [now intros [= <-] | |]);
    cbn [float_of_parts].
  all: on_int_quotient ltac:(fun sa sb ma mb =>
         pose proof (SFdiv_int_valid sa sb ma mb) as H;
         destruct (SFdiv prec emax (S754_finite sa ma 0) (S754_finite sb mb 0));
         intros [= <-]; exact H).
Qed.

(** Rounding to nearest: the place of the value is carried through the
    division and the shifts, and decides the rounding. *)
Lemma located_bracket (N X m : Z) (l : location) :
  0 < X -> located N X m l -> m * X <= N < (m + 1) * X.
Proof.
  intros HX H. destruct l as [| []]; cbn [located] in H; nia.
Qed.

Lemma located_scale (N X m c : Z) (l : location) :
  0 < c -> located N X m l -> located (N * c) (X * c) m l.
Proof.
  intros Hc H.
  assert (E2 : 2 * (N * c) = 2 * N * c) by ring.
  assert (E3 : (2 * m + 1) * (X * c) = (2 * m + 1) * X * c) by ring.
  assert (E4 : (m + 1) * (X * c) = (m + 1) * X * c) by ring.
  assert (E1 : m * (X * c) = m * X * c) by ring.
  destruct l as [| []]; cbn [located] in *; rewrite ?E1, ?E2, ?E3, ?E4.
  - now subst N.
  - now rewrite H.
  - split; apply Z.mul_lt_mono_pos_r; tauto.
  - split; apply Z.mul_lt_mono_pos_r; tauto.
Qed.

(** The location the division step computes from the remainder is the
    place of the quotient. *)
Lemma new_location_located (nb q r : Z) :
  0 < nb -> 0 <= r < nb ->
  located (q * nb + r) nb q (new_location nb r).
Proof.
  intros Hnb Hr. unfold new_location.
  destruct (Z.even nb) eqn:Ev.
  - unfold new_location_even.
    destruct (Z.eqb_spec r 0) as [-> | Hr0]; [cbn; lia |].
    destruct (Z.compare_spec (2 * r) nb); cbn [located]; lia.
  - unfold new_location_odd.
    destruct (Z.eqb_spec r 0) as [-> | Hr0]; [cbn; lia |].
    assert (Hodd : Z.odd nb = true) by (rewrite <- Z.negb_even, Ev; reflexivity).
    apply Z.odd_spec in Hodd. destruct Hodd as [k Hk].
    destruct (Z.compare_spec (2 * r + 1) nb); cbn [located]; lia.
Qed.

Lemma loc_of_record_of_loc (m : Z) (l : location) :
  loc_of_shr_record (shr_record_of_loc m l) = l
  /\ shr_m (shr_record_of_loc m l) = m.
Proof. destruct l as [| []]; split; reflexivity. Qed.

(** One shift step halves the mantissa and keeps the place of the value,
    in units twice as wide. *)
Lemma shr_1_located (N X : Z) (mrs : shr_record) :
  0 <= shr_m mrs -> 0 < X ->
  located N X (shr_m mrs) (loc_of_shr_record mrs) ->
  located N (X * 2) (shr_m (shr_1 mrs)) (loc_of_shr_record (shr_1 mrs)).
Proof.
  intros Hm HX H. destruct mrs as [m r s]. cbn [shr_m] in Hm.
  destruct m as [| [p | p |] | p]; try lia;
    destruct r, s; cbn [shr_1 shr_m loc_of_shr_record orb located] in *;
    try rewrite ?(Pos2Z.inj_xI p), ?(Pos2Z.inj_xO p) in *; nia.
Qed.

Lemma iter_shr_1_located (N X : Z) (k : nat) (mrs : shr_record) :
  0 <= shr_m mrs -> 0 < X ->
  located N X (shr_m mrs) (loc_of_shr_record mrs) ->
  located N (X * 2 ^ Z.of_nat k) (shr_m (Nat.iter k shr_1 mrs))
    (loc_of_shr_record (Nat.iter k shr_1 mrs)).
Proof.
  intros Hm HX H. induction k as [| k IH].
  - cbn. now rewrite Z.mul_1_r.
  - rewrite Nat.iter_succ, Nat2Z.inj_succ, Z.pow_succ_r by lia.
    replace (X * (2 * 2 ^ Z.of_nat k)) with (X * 2 ^ Z.of_nat k * 2) by ring.
    apply shr_1_located; [| | exact IH].
    + rewrite iter_shr_1_div by exact Hm.
      apply Z.div_pos; [exact Hm | apply Z.pow_pos_nonneg; lia].
    + apply Z.mul_pos_pos; [exact HX | apply Z.pow_pos_nonneg; lia].
Qed.

(** The shift to the stored exponent, with the place of the value. *)
Lemma shr_fexp_located (N X m e : Z) (l : location) :
  0 <= m -> 0 < X -> located N X m l ->
  let k := Z.max (fexp prec emax (Zdigits2 m + e) - e) 0 in
  let mrs := fst (shr_fexp prec emax m e l) in
  located N (X * 2 ^ k) (shr_m mrs) (loc_of_shr_record mrs).
Proof.
  intros Hm HX H k mrs. subst mrs. unfold shr_fexp.
  destruct (loc_of_record_of_loc m l) as [Hl Hmm].
  set (rec := shr_record_of_loc m l) in *.
  assert (H0 : located N X (shr_m rec) (loc_of_shr_record rec)) by (now rewrite Hl, Hmm).
  fold k. destruct (fexp prec emax (Zdigits2 m + e) - e) as [| p | p] eqn:E;
    cbn [shr fst].
  - replace k with 0 by (unfold k; lia). cbn. now rewrite Z.mul_1_r.
  - replace k with (Z.of_nat (Pos.to_nat p)) by (unfold k; lia).
    rewrite iter_pos_nat. apply iter_shr_1_located; [lia | exact HX | exact H0].
  - replace k with 0 by (unfold k; lia). cbn. now rewrite Z.mul_1_r.
Qed.

(** Rounding to nearest even lands within half a unit of the value, and
    on an even mantissa when the value is exactly half way. *)
Lemma round_nearest_even_near (N X m : Z) (l : location) :
  0 < X -> located N X m l ->
  let m1 := round_nearest_even m l in
  m <= m1 <= m + 1
  /\ 2 * Z.abs (m1 * X - N) <= X
  /\ (2 * Z.abs (m1 * X - N) = X -> Z.even m1 = true).
Proof.
  intros HX H m1. subst m1.
  assert (E1 : (2 * m + 1) * X = 2 * (m * X) + X) by ring.
  assert (E2 : (m + 1) * X = m * X + X) by ring.
  destruct l as [| []]; cbn [located round_nearest_even] in *;
    rewrite ?E1, ?E2 in *.
  - split; [lia |]. split; [lia |]. intros E. lia.
  - destruct (Z.even m) eqn:Ev.
    + split; [lia |]. split; [lia |]. intros _. exact Ev.
    + rewrite E2. split; [lia |]. split; [lia |]. intros _.
      rewrite Z.even_add, Ev. reflexivity.
  - split; [lia |]. split; [lia |]. intros E. lia.
  - split; [lia |]. split; [lia |]. intros E. lia.
Qed.

Lemma Zdigits2_pow2 (k : Z) : 0 <= k -> Zdigits2 (2 ^ k) = k + 1.
Proof.
  intros Hk. assert (Hp : 0 < 2 ^ k) by (apply Z.pow_pos_nonneg; lia).
  destruct (2 ^ k) as [| p | p] eqn:E; try lia.
  cbn [Zdigits2]. apply digits2_unique. rewrite <- E.
  replace (k + 1 - 1) with k by lia. split; [lia |].
  apply Z.pow_lt_mono_r; lia.
Qed.

(** The rounding step, given a mantissa with all the bits its magnitude
    calls for and the place of the value above it, ends on the nearest
    canonical mantissa and exponent, ties to even.  When the first rounding
    carries into a 54th bit, the second shift drops a zero bit. *)
Lemma binary_round_aux_nearest (sx : bool) (mx ex : Z) (lx : location) (N D : Z) :
  0 <= mx -> -1074 <= ex -> 0 < D ->
  ex <= fexp prec emax (Zdigits2 mx + ex) ->
  located N (2 ^ (ex + 1074) * D) mx lx ->
  exists m e,
    binary_round_aux prec emax sx mx ex lx = float_of_rounded sx m e
    /\ nearest_even N D m e.
Proof.
  intros Hm0 Hex HD Hin Hloc. rewrite fexp_binary64 in Hin.
  unfold binary_round_aux.
  assert (HX0 : 0 < 2 ^ (ex + 1074) * D).
  { apply Z.mul_pos_pos; [apply Z.pow_pos_nonneg; lia | exact HD]. }
  pose proof (shr_fexp_div mx ex lx Hm0) as [H1m H1e].
  pose proof (shr_fexp_located N _ mx ex lx Hm0 HX0 Hloc) as H1l.
  cbv zeta in H1m, H1e, H1l. rewrite fexp_binary64 in H1m, H1e, H1l.
  set (k1 := Z.max (Z.max (Zdigits2 mx + ex - 53) (-1074) - ex) 0) in *.
  destruct (shr_fexp prec emax mx ex lx) as [mrs1 e1]. cbn [fst snd] in H1m, H1e, H1l.
  assert (Hk1 : 0 <= k1) by (unfold k1; lia).
  assert (Hp1 : 0 < 2 ^ k1) by (apply Z.pow_pos_nonneg; lia).
  assert (He1 : -1074 <= e1) by (clear - Hex H1e Hk1; lia).
  assert (EX1 : 2 ^ (ex + 1074) * D * 2 ^ k1 = 2 ^ (e1 + 1074) * D).
  { rewrite H1e. replace (ex + k1 + 1074) with (ex + 1074 + k1) by lia.
    rewrite (Z.pow_add_r 2 (ex + 1074) k1) by lia. ring. }
  rewrite EX1 in H1l. clear EX1.
  set (X1 := 2 ^ (e1 + 1074) * D) in *.
  assert (HX1 : 0 < X1).
  { apply Z.mul_pos_pos; [apply Z.pow_pos_nonneg; lia | exact HD]. }
  set (m1s := shr_m mrs1) in *.
  assert (H1lo : 0 <= m1s) by (rewrite H1m; apply Z.div_pos; lia).
  pose proof (located_bracket N X1 m1s _ HX1 H1l) as Hbr.
  pose proof (round_nearest_even_near N X1 m1s _ HX1 H1l) as (Hr & Hnear & Htie).
  cbv zeta in Hr, Hnear, Htie.
  set (m1 := round_nearest_even m1s (loc_of_shr_record mrs1)) in *.
  (* the first shift leaves a canonical pair *)
  assert (Hz1 : m1s = 0 -> e1 = -1074).
  { intros Hz. destruct (Z.eq_dec mx 0) as [Hmx | Hmx].
    - subst mx. cbn [Zdigits2] in *. unfold k1 in *. lia.
    - rewrite H1e. apply (shr_to_zero_exponent mx ex k1); lia. }
  assert (Hc1 : 1 <= m1s -> Zdigits2 m1s <= 53 /\ (e1 = -1074 \/ Zdigits2 m1s = 53)).
  { intros H1. assert (Hd : Zdigits2 m1s = Zdigits2 mx - k1).
    { rewrite H1m. apply Zdigits2_shr; [exact Hk1 | rewrite <- H1m; exact H1]. }
    unfold k1 in *. lia. }
  assert (Hm1s : m1s < 2 ^ 53).
  { destruct (Z.eq_dec m1s 0) as [-> | Hnz]; [lia |].
    destruct (Hc1 ltac:(lia)) as [Hd _].
    destruct (Zdigits2_bounds m1s ltac:(lia)) as (_ & _ & Hhi).
    apply Z.lt_le_trans with (2 ^ Zdigits2 m1s); [exact Hhi |].
    apply Z.pow_le_mono_r; lia. }
  pose proof (shr_fexp_div m1 e1 loc_Exact ltac:(lia)) as [H2m H2e].
  cbv zeta in H2m, H2e. rewrite fexp_binary64 in H2m, H2e.
  set (k2 := Z.max (Z.max (Zdigits2 m1 + e1 - 53) (-1074) - e1) 0) in *.
  destruct (shr_fexp prec emax m1 e1 loc_Exact) as [mrs2 e2]. cbn [fst snd] in H2m, H2e.
  exists (shr_m mrs2), e2. split; [reflexivity |].
  unfold nearest_even. rewrite fexp_binary64.
  assert (E1 : (2 * m1 - 1) * X1 = 2 * (m1 * X1) - X1) by ring.
  assert (E2 : (2 * m1 + 1) * X1 = 2 * (m1 * X1) + X1) by ring.
  assert (E3 : (4 * m1 - 1) * X1 = 4 * (m1 * X1) - X1) by ring.
  assert (E4 : (m1s + 1) * X1 = m1s * X1 + X1) by ring.
  destruct (Z.eq_dec m1 (2 ^ 53)) as [Hcarry | Hnc].
  - (* the mantissa was rounded up to 2^53: one more shift *)
    assert (Hd : Zdigits2 m1 = 54) by (rewrite Hcarry; now rewrite Zdigits2_pow2 by lia).
    assert (Ek2 : k2 = 1) by (unfold k2; lia).
    rewrite Ek2 in *.
    assert (Em2 : shr_m mrs2 = 2 ^ 52).
    { rewrite H2m, Hcarry. change (2 ^ 53) with (2 ^ 52 * 2 ^ 1).
      apply Z.div_mul. discriminate. }
    rewrite Em2, H2e.
    assert (EX2 : 2 ^ (e1 + 1 + 1074) * D = 2 * X1).
    { unfold X1. replace (e1 + 1 + 1074) with (1 + (e1 + 1074)) by lia.
      rewrite (Z.pow_add_r 2 1 (e1 + 1074)) by lia. ring. }
    rewrite EX2. rewrite Zdigits2_pow2 by lia.
    clearbody X1. rewrite Hcarry in Hnear.
    repeat split; intros; lia.
  - (* no carry: the second shift does nothing *)
    assert (Hlt : m1 < 2 ^ 53) by lia.
    assert (Hd : Zdigits2 m1 <= 53).
    { apply Zdigits2_upper; lia. }
    assert (Ek2 : k2 = 0) by (unfold k2; lia).
    rewrite Ek2 in *. rewrite Z.pow_0_r, Z.div_1_r in H2m. rewrite Z.add_0_r in H2e.
    rewrite H2m, H2e. fold X1.
    assert (Hc : 1 <= m1 -> e1 = -1074 \/ Zdigits2 m1 = 53).
    { intros H1. destruct (Z.eq_dec m1s 0) as [Hz | Hnz]; [left; now apply Hz1 |].
      destruct (Hc1 ltac:(lia)) as [_ [He | Hd53]]; [now left | right].
      pose proof (Zdigits2_le m1s m1 ltac:(lia)). lia. }
    assert (Hb : m1 = 2 ^ 52 -> -1074 < e1 -> m1 = m1s).
    { intros Hm He. destruct (Z.eq_dec m1 m1s) as [| Hne]; [assumption | exfalso].
      assert (Hs : m1s = 2 ^ 52 - 1) by lia.
      destruct (Hc1 ltac:(lia)) as [_ [He' | Hd53]]; [lia |].
      pose proof (Zdigits2_upper m1s 52 ltac:(lia) ltac:(lia)). lia. }
    clearbody X1 m1 m1s.
    split; [lia |]. split; [lia |]. split; [intros Hz; apply Hz1; lia |].
    split; [intros H1; specialize (Hc H1); lia |].
    split; [lia |]. split.
    + intros Hm He. rewrite (Hb Hm He) in *. lia.
    + intros Ht. apply Htie. lia.
Qed.

(** The division step hands the rounding step a quotient together with the
    place of [ma / mb] above it. *)
Lemma SFdiv_core_int_located (ma mb : positive) :
  let e0 := div_exponent ma mb in
  let q := Zpos ma * 2 ^ (- e0) / Zpos mb in
  exists l,
    SFdiv_core_binary prec emax (Zpos ma) 0 (Zpos mb) 0 = (q, e0, l)
    /\ located (Zpos ma * 2 ^ 1074) (2 ^ (e0 + 1074) * Zpos mb) q l.
Proof.
  intros e0 q.
  assert (He0 : -1074 <= e0 <= 0) by (unfold e0, div_exponent; lia).
  pose proof (Z.mod_pos_bound (Zpos ma * 2 ^ (- e0)) (Zpos mb) ltac:(lia)) as Hr.
  pose proof (Z.div_mod (Zpos ma * 2 ^ (- e0)) (Zpos mb) ltac:(lia)) as Hn.
  fold q in Hn.
  exists (new_location (Zpos mb) ((Zpos ma * 2 ^ (- e0)) mod Zpos mb)). split.
  - unfold SFdiv_core_binary. cbn [Zdigits2]. rewrite fexp_binary64.
    replace (Z.min (Z.max (Zpos (digits2_pos ma) + 0 - (Zpos (digits2_pos mb) + 0) - 53)
                      (-1074)) (0 - 0))
      with e0 by (unfold e0, div_exponent; lia).
    assert (Hm : match 0 - 0 - e0 with
                 | 0 => Zpos ma
                 | Zpos _ => Z.shiftl (Zpos ma) (0 - 0 - e0)
                 | Zneg _ => 0
                 end = Zpos ma * 2 ^ (- e0)).
    { replace (0 - 0 - e0) with (- e0) by lia.
      destruct (- e0) as [| s | s] eqn:Es; [| | lia].
      - cbn [Z.pow]. lia.
      - now rewrite Z.shiftl_mul_pow2 by lia. }
    rewrite Hm. unfold q, Z.div, Z.modulo. now destruct (Z.div_eucl _ _).
  - pose proof (new_location_located (Zpos mb) q _ ltac:(lia) Hr) as H.
    replace (q * Zpos mb) with (Zpos mb * q) in H by ring.
    rewrite <- Hn in H.
    apply (located_scale _ _ _ (2 ^ (e0 + 1074))) in H; [| apply Z.pow_pos_nonneg; lia].
    replace (Zpos ma * 2 ^ (- e0) * 2 ^ (e0 + 1074)) with (Zpos ma * 2 ^ 1074) in H.
    + now replace (Zpos mb * 2 ^ (e0 + 1074)) with (2 ^ (e0 + 1074) * Zpos mb) in H by ring.
    + rewrite <- Z.mul_assoc, <- Z.pow_add_r by lia.
      f_equal. f_equal. lia.
Qed.

(** The quotient of two integers' floats is the nearest float, ties to
    even, of the quotient of the integers. *)
Lemma SFdiv_int_nearest (sa sb : bool) (ma mb : positive) :
  exists m e,
    SFdiv prec emax (S754_finite sa ma 0) (S754_finite sb mb 0)
    = float_of_rounded (xorb sa sb) m e
    /\ nearest_even (Zpos ma * 2 ^ 1074) (Zpos mb) m e.
Proof.
  unfold SFdiv. destruct (SFdiv_core_int_located ma mb) as (l & -> & Hl).
  destruct (SFdiv_core_int_bracket ma mb) as (He0 & Hq & _ & _).
  apply binary_round_aux_nearest;
    [exact Hq | lia | lia | apply SFdiv_core_int_precise | exact Hl].
Qed.

(** A canonical mantissa has at most 53 bits, and exactly 53 above the
    least exponent. *)
Lemma nearest_even_mantissa (N D m e : Z) :
  nearest_even N D m e ->
  m < 2 ^ 53 /\ (-1074 < e -> 2 ^ 52 <= m).
Proof.
  intros (Hm & He & Hz & Hc & _). rewrite fexp_binary64 in Hc.
  destruct (Z.eq_dec m 0) as [-> | Hnz]; [split; lia |].
  specialize (Hc ltac:(lia)).
  destruct (Zdigits2_bounds m ltac:(lia)) as (Hd & Hlo & Hhi).
  split.
  - apply Z.lt_le_trans with (2 ^ Zdigits2 m); [exact Hhi |].
    apply Z.pow_le_mono_r; lia.
  - intros Hlt. replace (Zdigits2 m) with 53 in Hlo by lia. exact Hlo.
Qed.

(** Two canonical pairs nearest to the same value are the same pair: at
    one exponent their mantissas would be neighbours sharing a midpoint,
    one of them odd; at two exponents the value would be the midpoint
    below a power of two, with the odd mantissa [2^53 - 1] under it. *)
Lemma nearest_even_unique_le (N D m e m' e' : Z) :
  0 < D -> e <= e' ->
  nearest_even N D m e -> nearest_even N D m' e' -> m = m' /\ e = e'.
Proof.
  intros HD Hle H H'.
  pose proof (nearest_even_mantissa _ _ _ _ H) as [Hm53 _].
  pose proof (nearest_even_mantissa _ _ _ _ H') as [_ Hm52'].
  destruct H as (Hm & He & _ & _ & Hb & _ & Ht).
  destruct H' as (Hm' & He' & _ & _ & Hb' & Hq' & Ht').
  cbv zeta in *.
  set (X := 2 ^ (e + 1074) * D) in *.
  assert (HX : 0 < X).
  { apply Z.mul_pos_pos; [apply Z.pow_pos_nonneg; lia | exact HD]. }
  destruct (Z.eq_dec e e') as [<- | Hne].
  - split; [| reflexivity]. fold X in Hb', Hq', Ht'.
    assert (E1 : (2 * m - 1) * X = 2 * (m * X) - X) by ring.
    assert (E2 : (2 * m + 1) * X = 2 * (m * X) + X) by ring.
    assert (E3 : (2 * m' - 1) * X = 2 * (m' * X) - X) by ring.
    assert (E4 : (2 * m' + 1) * X = 2 * (m' * X) + X) by ring.
    rewrite E1, E2 in Hb, Ht. rewrite E3, E4 in Hb', Ht'. clearbody X.
    destruct (Z.lt_trichotomy m m') as [Hlt | [Heq | Hgt]]; [| exact Heq |]; exfalso.
    + assert (m' = m + 1) by nia. subst m'.
      assert (Ev : Z.even m = true) by (apply Ht; nia).
      assert (Ev' : Z.even (m + 1) = true) by (apply Ht'; nia).
      rewrite Z.even_add, Ev in Ev'. discriminate Ev'.
    + assert (m = m' + 1) by nia. subst m.
      assert (Ev : Z.even m' = true) by (apply Ht'; nia).
      assert (Ev' : Z.even (m' + 1) = true) by (apply Ht; nia).
      rewrite Z.even_add, Ev in Ev'. discriminate Ev'.
  - exfalso. specialize (Hm52' ltac:(lia)).
    assert (EX : 2 ^ (e' + 1074) * D = 2 ^ (e' - e - 1) * (2 * X)).
    { unfold X. replace (e' + 1074) with ((e' - e - 1) + (1 + (e + 1074))) by lia.
      rewrite (Z.pow_add_r 2 (e' - e - 1)) by lia.
      rewrite (Z.pow_add_r 2 1 (e + 1074)) by lia. ring. }
    rewrite EX in *.
    assert (Hp : 1 <= 2 ^ (e' - e - 1)).
    { assert (0 < 2 ^ (e' - e - 1)) by (apply Z.pow_pos_nonneg; lia). lia. }
    clearbody X. clear EX. set (c := 2 ^ (e' - e - 1)) in *. clearbody c.
    assert (A1 : X <= c * X) by nia.
    assert (A2 : m * X <= (2 ^ 53 - 1) * X) by (apply Z.mul_le_mono_nonneg_r; lia).
    assert (E2 : (2 * m + 1) * X = 2 * (m * X) + X) by ring.
    rewrite E2 in Hb, Ht.
    destruct (Z.eq_dec m' (2 ^ 52)) as [-> | Hne52].
    + specialize (Hq' eq_refl ltac:(lia)).
      replace ((4 * 2 ^ 52 - 1) * (c * (2 * X))) with ((2 ^ 55 - 2) * (c * X)) in Hq' by ring.
      assert (Em : m * X = (2 ^ 53 - 1) * X) by lia.
      apply Z.mul_reg_r in Em; [| lia].
      assert (Ev : Z.even m = true) by (apply Ht; lia).
      rewrite Em in Ev. discriminate Ev.
    + assert (A3 : (2 ^ 53 + 1) * (c * X) <= (2 * m' - 1) * (c * X)).
      { apply Z.mul_le_mono_nonneg_r; lia. }
      replace ((2 * m' - 1) * (c * (2 * X))) with (2 * ((2 * m' - 1) * (c * X))) in Hb' by ring.
      lia.
Qed.

(** The float nearest to a quotient is determined by the quotient. *)
Lemma nearest_even_unique (N D m e m' e' : Z) :
  0 < D ->
  nearest_even N D m e -> nearest_even N D m' e' -> m = m' /\ e = e'.
Proof.
  intros HD H H'. destruct (Z.le_ge_cases e e') as [Hle | Hge].
  - now apply (nearest_even_unique_le N D).
  - destruct (nearest_even_unique_le N D m' e' m e HD Hge H' H) as [-> ->].
    split; reflexivity.
Qed.

(** The nearest float lies beyond the largest binary64 exponent exactly
    from the midpoint between the largest float and [2^1024] on. *)
Lemma nearest_even_overflow (N D m e : Z) :
  0 < D -> nearest_even N D m e ->
  (1 <= m /\ 971 < e) <-> (2 ^ 54 - 1) * (2 ^ 2045 * D) <= 2 * N.
Proof.
  intros HD H.
  pose proof (nearest_even_mantissa _ _ _ _ H) as [Hm53 Hm52].
  destruct H as (Hm & He & Hz & _ & Hb & Hq & Ht). cbv zeta in *.
  set (T := 2 ^ 2045 * D).
  assert (HT : 0 < T) by (apply Z.mul_pos_pos; [apply Z.pow_pos_nonneg |]; lia).
  split.
  - intros [H1 He972]. specialize (Hm52 ltac:(lia)).
    assert (EX : 2 ^ (e + 1074) * D = 2 ^ (e - 972) * (2 * T)).
    { unfold T. replace (e + 1074) with ((e - 972) + (1 + 2045)) by lia.
      rewrite (Z.pow_add_r 2 (e - 972)) by lia.
      rewrite (Z.pow_add_r 2 1 2045) by lia. ring. }
    rewrite EX in *. clear EX.
    assert (Hp : 1 <= 2 ^ (e - 972)).
    { assert (0 < 2 ^ (e - 972)) by (apply Z.pow_pos_nonneg; lia). lia. }
    set (c := 2 ^ (e - 972)) in *. clearbody c T.
    assert (A1 : T <= c * T) by nia.
    destruct (Z.eq_dec m (2 ^ 52)) as [-> | Hne].
    + specialize (Hq eq_refl ltac:(lia)).
      replace ((4 * 2 ^ 52 - 1) * (c * (2 * T))) with ((2 ^ 55 - 2) * (c * T)) in Hq by ring.
      lia.
    + assert (A3 : (2 ^ 53 + 1) * (c * T) <= (2 * m - 1) * (c * T)).
      { apply Z.mul_le_mono_nonneg_r; lia. }
      replace ((2 * m - 1) * (c * (2 * T))) with (2 * ((2 * m - 1) * (c * T))) in Hb by ring.
      lia.
  - intros Hbig.
    assert (H1 : 1 <= m).
    { destruct (Z.eq_dec m 0) as [-> | Hnz]; [exfalso | lia].
      rewrite (Hz eq_refl) in Hb. change (2 ^ (-1074 + 1074)) with 1 in Hb.
      assert (D <= T); [| lia].
      unfold T. assert (1 <= 2 ^ 2045) by lia. nia. }
    split; [exact H1 |].
    destruct (Z.lt_ge_cases 971 e) as [| Hle]; [assumption | exfalso].
    assert (ET : T = 2 ^ (971 - e) * (2 ^ (e + 1074) * D)).
    { unfold T. replace 2045 with ((971 - e) + (e + 1074)) at 1 by lia.
      rewrite (Z.pow_add_r 2 (971 - e)) by lia. ring. }
    set (X := 2 ^ (e + 1074) * D) in *.
    assert (HX : 0 < X) by (apply Z.mul_pos_pos; [apply Z.pow_pos_nonneg |]; lia).
    assert (Hp : 1 <= 2 ^ (971 - e)).
    { assert (0 < 2 ^ (971 - e)) by (apply Z.pow_pos_nonneg; lia). lia. }
    set (c := 2 ^ (971 - e)) in *. clearbody c X T. subst T.
    assert (A1 : X <= c * X) by nia.
    assert (A2 : m * X <= (2 ^ 53 - 1) * X) by (apply Z.mul_le_mono_nonneg_r; lia).
    assert (E2 : (2 * m + 1) * X = 2 * (m * X) + X) by ring.
    rewrite E2 in Hb, Ht.
    assert (Em : m * X = (2 ^ 53 - 1) * X) by lia.
    apply Z.mul_reg_r in Em; [| lia].
    assert (Ev : Z.even m = true) by (apply Ht; lia).
    rewrite Em in Ev. discriminate Ev.
Qed.

Lemma nearest_even_zero (D : Z) : 0 < D -> nearest_even 0 D 0 (-1074).
Proof.
  intros HD. unfold nearest_even. change (2 ^ (-1074 + 1074)) with 1.
  repeat split; intros; lia.
Qed.

(** [a / b] on two integers rounds [|a| / |b|] to the nearest float, ties
    to even, and raises when that lies beyond the largest exponent. *)
Lemma int_true_divide_rounded (a b : Z) :
  b <> 0 ->
  exists m e,
    nearest_even (Z.abs a * 2 ^ 1074) (Z.abs b) m e
    /\ int_true_divide a b
       = match float_of_rounded (xorb (a <? 0) (b <? 0)) m e with
         | S754_infinity _ => Raise OverflowError
         | f => Return f
         end.
Proof.
  intros Hb. unfold int_true_divide.
  destruct b as [| mb | mb]; [contradiction | |];
    (destruct a as [| ma | ma];
     [exists 0, (-1074); split; [now apply nearest_even_zero | reflexivity] | |]);
    cbn [float_of_parts Z.abs].
  all: on_int_quotient ltac:(fun sa sb ma mb =>
         destruct (SFdiv_int_nearest sa sb ma mb) as (m & e & -> & H);
         exists m, e; split; [exact H | reflexivity]).
Qed.

(** The three ends of a rounding step: a zero, a canonical finite float,
    or an exponent beyond the largest. *)
Lemma float_of_rounded_cases (s : bool) (N D m e : Z) :
  nearest_even N D m e ->
  (m = 0 /\ e = -1074 /\ float_of_rounded s m e = S754_zero s)
  \/ (exists p, m = Zpos p /\ e <= 971
                /\ float_of_rounded s m e = S754_finite s p e
                /\ valid_binary prec emax (S754_finite s p e) = true)
  \/ (1 <= m /\ 971 < e /\ float_of_rounded s m e = S754_infinity s).
Proof.
  intros (Hm & He & Hz & Hc & _).
  destruct m as [| p | p]; [left | right | lia].
  - split; [reflexivity |]. split; [now apply Hz | reflexivity].
  - specialize (Hc ltac:(lia)). cbn [float_of_rounded].
    change (emax - prec) with 971.
    destruct (Z.leb_spec e 971) as [Hle | Hgt]; [left | right].
    + exists p. do 3 (split; [reflexivity || exact Hle |]).
      cbn [valid_binary]. unfold bounded, canonical_mantissa.
      cbn [Zdigits2] in Hc. rewrite Hc, Z.eqb_refl.
      change (emax - prec) with 971. now apply Z.leb_le.
    + split; [lia |]. split; [exact Hgt | reflexivity].
Qed.

(** The float [a / b] returns is the canonical nearest float, and no
    other. *)
Lemma int_true_divide_nearest (a b : Z) (f : spec_float) :
  b <> 0 ->
  int_true_divide a b = Return f
  <-> valid_binary prec emax f = true /\ nearest_float f a b.
Proof.
  intros Hb. destruct (int_true_divide_rounded a b Hb) as (m & e & H & ->).
  set (s := xorb (a <? 0) (b <? 0)).
  assert (HD : 0 < Z.abs b) by lia.
  destruct (float_of_rounded_cases s _ _ _ _ H)
    as [(-> & -> & ->) | [(p & -> & Hle & -> & Hv) | (H1 & Hgt & ->)]].
  - split.
    + intros [= <-]. split; [reflexivity |]. split; [reflexivity | exact H].
    + intros [_ Hn]. destruct f as [s' | | | s' p' e']; cbn [nearest_float] in Hn;
        try contradiction; destruct Hn as [-> Hn]; [reflexivity |].
      destruct (nearest_even_unique _ _ _ _ _ _ HD H Hn) as [E _]. discriminate E.
  - split.
    + intros [= <-]. split; [exact Hv |]. split; [reflexivity | exact H].
    + intros [_ Hn]. destruct f as [s' | | | s' p' e']; cbn [nearest_float] in Hn;
        try contradiction; destruct Hn as [-> Hn].
      * destruct (nearest_even_unique _ _ _ _ _ _ HD H Hn) as [E _]. discriminate E.
      * destruct (nearest_even_unique _ _ _ _ _ _ HD H Hn) as [[= ->] ->]. reflexivity.
  - split; [discriminate |].
    intros [Hv Hn]. exfalso.
    destruct f as [s' | | | s' p' e']; cbn [nearest_float] in Hn;
      try contradiction; destruct Hn as [_ Hn];
      destruct (nearest_even_unique _ _ _ _ _ _ HD H Hn) as [Em Ee]; [lia |].
    cbn [valid_binary] in Hv. unfold bounded in Hv.
    apply andb_true_iff in Hv. destruct Hv as [_ Hv].
    change (emax - prec) with 971 in Hv. apply Z.leb_le in Hv. lia.
Qed.

(** [a / b] raises [OverflowError] exactly when [|a / b|] reaches the
    midpoint between the largest float and [2^1024]. *)
Lemma int_true_divide_overflow_iff (a b : Z) :
  b <> 0 ->
  int_true_divide a b = Raise OverflowError
  <-> (2 ^ 54 - 1) * 2 ^ 971 * Z.abs b <= 2 * Z.abs a.
Proof.
  intros Hb. destruct (int_true_divide_rounded a b Hb) as (m & e & H & ->).
  set (s := xorb (a <? 0) (b <? 0)).
  assert (HD : 0 < Z.abs b) by lia.
  pose proof (nearest_even_overflow _ _ _ _ HD H) as Ho.
  assert (E : (2 ^ 54 - 1) * (2 ^ 2045 * Z.abs b) <= 2 * (Z.abs a * 2 ^ 1074)
              <-> (2 ^ 54 - 1) * 2 ^ 971 * Z.abs b <= 2 * Z.abs a).
  { change (2 ^ 2045) with (2 ^ 971 * 2 ^ 1074).
    replace ((2 ^ 54 - 1) * (2 ^ 971 * 2 ^ 1074 * Z.abs b))
      with ((2 ^ 54 - 1) * 2 ^ 971 * Z.abs b * 2 ^ 1074) by ring.
    replace (2 * (Z.abs a * 2 ^ 1074)) with (2 * Z.abs a * 2 ^ 1074) by ring.
    symmetry. apply Z.mul_le_mono_pos_r. reflexivity. }
  rewrite <- E, <- Ho. clear E Ho.
  destruct (float_of_rounded_cases s _ _ _ _ H)
    as [(-> & -> & ->) | [(p & -> & Hle & -> & Hv) | (H1 & Hgt & ->)]].
  - split; [discriminate | lia].
  - split; [discriminate | lia].
  - split; [intros _; split; assumption | reflexivity].
Qed.

End Binary64.

(** ** The calculator *)

Section CalculatorProperties.

Import Calculator Harness.

Lemma int_eq_zero_true (b : Z) : py_eq_zero b = true <-> b = 0.
Proof. unfold py_eq_zero, int_eq_zero. apply Z.eqb_eq. Qed.

Lemma int_eq_zero_false (b : Z) : py_eq_zero b = false <-> b <> 0.
Proof. unfold py_eq_zero, int_eq_zero. apply Z.eqb_neq. Qed.

(** Past its guard, [modulo] is the interpreter's [%]. *)
Lemma modulo_nonzero (a b : Z) : b <> 0 -> modulo a b = Return (a mod b).
Proof.
  intros Hb. unfold modulo.
  replace (py_eq_zero b) with false by (symmetry; now apply int_eq_zero_false).
  unfold py_mod, int_modulo, int_mod.
  now replace (b =? 0) with false by (symmetry; now apply Z.eqb_neq).
Qed.

Lemma modulo_zero (a : Z) : modulo a 0 = Raise (ValueError "Cannot modulo by zero!").
Proof. reflexivity. Qed.

(** C3: on integers, modulo(a, b) raises the DivisionByZero kind exactly
    when b = 0; for b <> 0 it returns the floor-mod remainder r, the one
    with a = b*q + r whose sign follows b; no other error kind is
    raised. *)
Theorem modulo_floor_mod (a b : Z) :
  ((exists e, modulo a b = Raise e /\ DivisionByZero e = true) <-> b = 0)
  /\ (b <> 0 ->
      exists r, modulo a b = Return r
                /\ (exists q, a = b * q + r)
                /\ (0 <= r < b \/ b < r <= 0))
  /\ (forall e, modulo a b = Raise e -> DivisionByZero e = true).
Proof.
  destruct (Z.eq_dec b 0) as [-> | Hb].
  - rewrite modulo_zero. repeat split.
    + eexists. split; reflexivity.
    + intros H. now contradiction H.
    + intros e [= <-]. reflexivity.
  - rewrite (modulo_nonzero a b Hb). repeat split.
    + intros (e & [=] & _).
    + intros ->. now contradiction Hb.
    + intros _. exists (a mod b). split; [reflexivity | split].
      * exists (a / b). apply Z.div_mod. exact Hb.
      * destruct (Z.lt_trichotomy b 0) as [Hn | [H0 | Hp]]; [| lia |].
        -- right. pose proof (Z.mod_neg_bound a b Hn). lia.
        -- left. apply Z.mod_pos_bound. exact Hp.
    + intros e [=].
Qed.

Lemma modulo_floor_mod_witness :
  exists r, modulo (-17) 5 = Return r
            /\ (exists q, -17 = 5 * q + r)
            /\ (0 <= r < 5 \/ 5 < r <= 0).
Proof.
  destruct (modulo_floor_mod (-17) 5) as (_ & H & _). apply H. lia.
Defined.

(** Past its guard, [divide] is the interpreter's [/]. *)
Lemma divide_nonzero (a b : Z) : b <> 0 -> divide a b = int_true_divide a b.
Proof.
  intros Hb. unfold divide.
  now replace (py_eq_zero b) with false by (symmetry; now apply int_eq_zero_false).
Qed.

Lemma divide_zero (a : Z) : divide a 0 = Raise (ValueError "Cannot divide by zero!").
Proof. reflexivity. Qed.

(** The claim of C2 as it stands fails twice: divide(1, 3) returns a float
    that is not the rational 1/3, and divide(10^400, 1), whose divisor is
    not zero, raises OverflowError, which is not the DivisionByZero kind. *)
Lemma divide_inexact_and_overflows :
  (exists f q, divide 1 3 = Return f /\ SF2Q f = Some q /\ ~ (q == 1 # 3)%Q)
  /\ divide (10 ^ 400) 1 = Raise OverflowError
  /\ DivisionByZero OverflowError = false.
Proof.
  split; [| split].
  - eexists. eexists. split; [vm_compute; reflexivity |].
    split; [reflexivity |].
    intros H. vm_compute in H. discriminate H.
  - vm_compute. reflexivity.
  - reflexivity.
Qed.

(** C2, amended: on integers, divide(a, b) raises the DivisionByZero kind
    exactly when b = 0.  For b <> 0 it returns the binary64 float nearest
    to a/b, ties to even, or raises OverflowError, and nothing else.  The
    float returned is a zero or a finite float in canonical form (a 53-bit
    mantissa, or a shorter one at the least exponent -1074, and an exponent
    of at most 971), carries a minus sign exactly when exactly one of a and
    b is negative, and is within one unit in its last place of a/b; it is
    returned by no other rule: every canonical float nearest to a/b, ties
    to even, is the one returned.  The float is exactly a/b whenever a/b is
    an integer of magnitude below 2^53.  OverflowError is raised exactly
    when |a/b| >= 2^1024 - 2^970, the midpoint between the largest float
    and 2^1024: never when |a/b| < 2^1023, always when |a/b| >= 2^1024. *)
Theorem divide_rounded_quotient (a b : Z) :
  ((exists e, divide a b = Raise e /\ DivisionByZero e = true) <-> b = 0)
  /\ (forall e, divide a b = Raise e ->
                (b = 0 /\ e = ValueError "Cannot divide by zero!")
                \/ (b <> 0 /\ e = OverflowError))
  /\ (forall f, divide a b = Return f ->
                b <> 0 /\ is_number f = true
                /\ valid_binary prec emax f = true /\ within_one_ulp f a b)
  /\ (forall q, b <> 0 -> a = q * b -> Z.abs q < 2 ^ 53 ->
                exists f, divide a b = Return f /\ float_is f (inject_Z q))
  /\ (b <> 0 -> Z.abs a < 2 ^ 1023 * Z.abs b ->
      exists f, divide a b = Return f /\ is_number f = true)
  /\ (b <> 0 -> 2 ^ 1024 * Z.abs b <= Z.abs a ->
      divide a b = Raise OverflowError)
  /\ (forall f, divide a b = Return f
                <-> b <> 0 /\ valid_binary prec emax f = true
                    /\ nearest_float f a b)
  /\ (divide a b = Raise OverflowError
      <-> b <> 0 /\ (2 ^ 54 - 1) * 2 ^ 971 * Z.abs b <= 2 * Z.abs a).
Proof.
  destruct (Z.eq_dec b 0) as [-> | Hb].
  - rewrite divide_zero.
    split; [| split; [| split; [| split; [| split; [| split; [| split]]]]]].
    + split; [reflexivity |]. intros _. eexists. split; reflexivity.
    + intros e [= <-]. left. split; reflexivity.
    + discriminate.
    + intros q H. now contradiction H.
    + intros H. now contradiction H.
    + intros H. now contradiction H.
    + intros f. split; [discriminate | intros [H _]; now contradiction H].
    + split; [discriminate | intros [H _]; now contradiction H].
  - rewrite (divide_nonzero a b Hb).
    pose proof (int_true_divide_outcome a b Hb) as Hout.
    split; [| split; [| split; [| split; [| split; [| split; [| split]]]]]].
    + split; [| intros ->; now contradiction Hb].
      intros (e & He & Hk).
      destruct Hout as [(f & Hf & _) | Ho]; rewrite He in *; [discriminate Hf |].
      injection Ho as ->. discriminate Hk.
    + intros e He. right. split; [exact Hb |].
      destruct Hout as [(f & Hf & _) | Ho]; rewrite He in *; [discriminate Hf |].
      now injection Ho.
    + intros f Hf. split; [exact Hb |].
      split; [| split; [now apply (int_true_divide_valid a b) |
                        now apply int_true_divide_faithful]].
      destruct Hout as [(f' & Hf' & Hn) | Ho]; rewrite Hf in *; [| discriminate Ho].
      injection Hf' as ->. exact Hn.
    + intros q _. apply int_true_divide_exact. exact Hb.
    + intros _. apply int_true_divide_no_overflow. exact Hb.
    + intros _. apply int_true_divide_overflow. exact Hb.
    + intros f. rewrite (int_true_divide_nearest a b f Hb). tauto.
    + rewrite (int_true_divide_overflow_iff a b Hb). tauto.
Qed.

Lemma divide_rounded_quotient_witness :
  (exists f, divide 20 5 = Return f /\ float_is f 4)
  /\ (exists f, divide 1 3 = Return f /\ is_number f = true)
  /\ divide (2 ^ 1024) 1 = Raise OverflowError
  /\ divide (2 ^ 1024 - 2 ^ 970) 1 = Raise OverflowError
  /\ nearest_float (S754_finite false 6004799503160661 (-54)) 1 3.
Proof.
  split; [| split; [| split; [| split]]].
  - destruct (divide_rounded_quotient 20 5) as (_ & _ & _ & H & _).
    apply (H 4); [lia | reflexivity | reflexivity].
  - destruct (divide_rounded_quotient 1 3) as (_ & _ & _ & _ & H & _).
    apply H; [lia | reflexivity].
  - destruct (divide_rounded_quotient (2 ^ 1024) 1) as (_ & _ & _ & _ & _ & H & _).
    apply H; [lia | cbn; lia].
  - destruct (divide_rounded_quotient (2 ^ 1024 - 2 ^ 970) 1)
      as (_ & _ & _ & _ & _ & _ & _ & H).
    apply H. split; [lia | vm_compute; discriminate].
  - destruct (divide_rounded_quotient 1 3) as (_ & _ & _ & _ & _ & _ & H & _).
    apply H. vm_compute. reflexivity.
Defined.

(** The claim of C4 as it stands fails: zero to a negative power raises
    the interpreter's ZeroDivisionError (and a negative power of an integer
    beyond the float range raises OverflowError). *)
Lemma power_zero_negative_raises :
  power 0 (-1) = (Raise ZeroDivisionError : outcome value)
  /\ power (10 ^ 400) (-1) = (Raise OverflowError : outcome value)
  /\ ~ (forall a b : Z, exists v : value, power a b = Return v).
Proof.
  split; [reflexivity |]. split; [vm_compute; reflexivity |].
  intros H. destruct (H 0 (-1)) as [v Hv]. discriminate Hv.
Qed.

(** C4, amended: for every integer a and every integer b >= 0,
    power(a, b) returns the integer a^b and raises nothing. *)
Theorem power_nonnegative_exponent (a b : Z) :
  0 <= b -> power a b = Return (VInt (a ^ b)).
Proof.
  intros Hb. unfold power, py_pow, int_power, int_pow.
  apply Z.leb_le in Hb. now rewrite Hb.
Qed.

Lemma power_nonnegative_exponent_witness : power 2 10 = Return (VInt 1024).
Proof. apply (power_nonnegative_exponent 2 10). lia. Defined.

(** C7: add(multiply(3,4), power(2,3)) - divide(16,4), composed by
    function nesting, evaluates without error to exactly 16: the float
    returned stands for 16, and the script's [result == 16] holds. *)
Theorem composite_is_16 :
  exists f, composite = Return f
            /\ float_is f 16
            /\ py_eq f 16 = true
            /\ forall g, test8 g = (Return tt, {| result := Some (VFloat f) |}).
Proof.
  eexists. split; [vm_compute; reflexivity |].
  split; [| split].
  - eexists. split; [reflexivity |]. vm_compute. reflexivity.
  - vm_compute. reflexivity.
  - intros g. reflexivity.
Qed.

(** C8: add(5,3)=8, subtract(10,4)=6, multiply(6,7)=42, divide(20,5)=4,
    power(2,10)=1024 and modulo(17,5)=2; the quotient is the float that
    stands for exactly 4. *)
Theorem point_evaluations :
  add 5 3 = Return 8
  /\ subtract 10 4 = Return 6
  /\ multiply 6 7 = Return 42
  /\ (exists f, divide 20 5 = Return f /\ float_is f 4 /\ py_eq f 4 = true)
  /\ power 2 10 = Return (VInt 1024)
  /\ modulo 17 5 = Return 2.
Proof.
  repeat split; try reflexivity.
  eexists. split; [vm_compute; reflexivity |]. split.
  - eexists. split; [reflexivity |]. vm_compute. reflexivity.
  - vm_compute. reflexivity.
Qed.

(** The whole suite runs to its end: no assertion fails, test 7 catches
    the error, and [result] is left at the composite value. *)
Lemma test_suite_passes (g : globals) :
  exists f, test_suite g = (Return true, {| result := Some (VFloat f) |})
            /\ float_is f 16.
Proof.
  eexists. split; [vm_compute; reflexivity |].
  eexists. split; [reflexivity |]. vm_compute. reflexivity.
Qed.

Lemma frac_eq_zero_false (b : Qc) : b <> 0%Qc -> py_eq_zero b = false.
Proof.
  intros Hb. unfold py_eq_zero, frac_eq_zero.
  destruct (Qeq_bool b 0) eqn:E; [| reflexivity].
  exfalso. apply Hb. apply Qc_is_canon. apply Qeq_bool_iff. exact E.
Qed.

(** C10: under exact rational arithmetic, for every a and every b <> 0,
    multiply(divide(a, b), b) = a. *)
Theorem divide_multiply_roundtrip (a b : Qc) :
  b <> 0%Qc ->
  (d <- divide a b ;; multiply d b)%py = Return a.
Proof.
  intros Hb. pose proof (frac_eq_zero_false b Hb) as E.
  unfold divide. rewrite E.
  unfold py_eq_zero, frac_eq_zero in E.
  unfold py_truediv, frac_div. rewrite E.
  cbn [bind]. unfold multiply, py_mul, frac_mul. f_equal.
  rewrite Qcmult_comm. apply Qcmult_div_r. exact Hb.
Qed.

Lemma divide_multiply_roundtrip_witness :
  (d <- divide (Q2Qc (1 # 1)) (Q2Qc (49 # 1)) ;; multiply d (Q2Qc (49 # 1)))%py
  = Return (Q2Qc (1 # 1)).
Proof.
  apply (divide_multiply_roundtrip (Q2Qc (1 # 1)) (Q2Qc (49 # 1))).
  intros H. apply (f_equal this) in H. vm_compute in H. discriminate H.
Defined.

(** On binary64 the same round trip can miss by one unit in the last
    place: 1/49*49 is the float just below 1. *)
Remark float_roundtrip_misses :
  exists f, (d <- divide 1 49 ;; multiply d 49)%py = Return f
            /\ py_eq f 1 = false.
Proof.
  eexists. split; vm_compute; reflexivity.
Qed.

End CalculatorProperties.

(** * Further properties *)

(** ** The Fibonacci function: values, stack depth and cost *)

Section FibonacciFurther.

Import Fibonacci.

(** The counting function's equation, in the shape of the Python body. *)
Lemma fibonacci_calls_body (n : Z) :
  fibonacci_calls n =
  if n <=? 0 then 1
  else if n =? 1 then 1
  else 1 + fibonacci_calls (n - 1) + fibonacci_calls (n - 2).
Proof.
  rewrite fibonacci_calls_equation_1.
  destruct (Z_le_gt_dec n 0) as [Hle | Hgt]; cbn.
  - apply Z.leb_le in Hle. now rewrite Hle.
  - replace (n <=? 0) with false by (symmetry; apply Z.leb_gt; lia).
    destruct (Z.eq_dec n 1) as [-> | Hne]; cbn; [reflexivity |].
    now replace (n =? 1) with false by (symmetry; apply Z.eqb_neq; exact Hne).
Qed.

(** From 2 on, the body takes its last branch. *)
Lemma fibonacci_step (n : Z) :
  2 <= n -> fibonacci n = fibonacci (n - 1) + fibonacci (n - 2).
Proof.
  intros Hn. rewrite (fibonacci_body n).
  replace (n <=? 0) with false by (symmetry; apply Z.leb_gt; lia).
  now replace (n =? 1) with false by (symmetry; apply Z.eqb_neq; lia).
Qed.

(** Up to 0, the body takes its first branch. *)
Lemma fibonacci_base (n : Z) : n <= 0 -> fibonacci n = 0.
Proof.
  intros Hn. rewrite fibonacci_body.
  now replace (n <=? 0) with true by (symmetry; apply Z.leb_le; exact Hn).
Qed.

(** Values never go down from one argument to the next, and are never
    negative. *)
Lemma fibonacci_succ_le (n : Z) : 0 <= fibonacci n <= fibonacci (n + 1).
Proof.
  destruct (Z.le_gt_cases n (-1)) as [Hneg | Hpos].
  - rewrite !fibonacci_base by lia. lia.
  - replace n with (Z.of_nat (Z.to_nat n)) by lia.
    generalize (Z.to_nat n) as k. clear n Hpos. intros k.
    replace (Z.of_nat k + 1) with (Z.of_nat (S k)) by lia.
    rewrite !fibonacci_canonical.
    induction k as [| k IH]; [cbn; lia |].
    rewrite canonical_step. lia.
Qed.

Lemma fibonacci_le (n m : Z) : n <= m -> fibonacci n <= fibonacci m.
Proof.
  intros Hnm. replace m with (n + Z.of_nat (Z.to_nat (m - n))) by lia.
  generalize (Z.to_nat (m - n)) as k. intros k.
  induction k as [| k IH]; [rewrite Z.add_0_r; lia |].
  pose proof (fibonacci_succ_le (n + Z.of_nat k)).
  replace (n + Z.of_nat (S k)) with (n + Z.of_nat k + 1) by lia. lia.
Qed.

(** Two steps up at least double the value. *)
Lemma fibonacci_doubles (n : Z) : 0 <= n -> 2 * fibonacci n <= fibonacci (n + 2).
Proof.
  intros Hn. rewrite (fibonacci_step (n + 2)) by lia.
  replace (n + 2 - 1) with (n + 1) by lia. replace (n + 2 - 2) with n by lia.
  pose proof (fibonacci_succ_le n). lia.
Qed.

Lemma fibonacci_odd_pow2 (k : nat) :
  2 ^ Z.of_nat k <= fibonacci (2 * Z.of_nat k + 1).
Proof.
  induction k as [| k IH].
  - change (fibonacci (2 * Z.of_nat 0 + 1)) with (fibonacci 1).
    rewrite fibonacci_body. cbn. lia.
  - rewrite Nat2Z.inj_succ, Z.pow_succ_r by lia.
    pose proof (fibonacci_doubles (2 * Z.of_nat k + 1) ltac:(lia)).
    replace (2 * Z.succ (Z.of_nat k) + 1) with (2 * Z.of_nat k + 1 + 2) by lia. lia.
Qed.

(** The count of calls, in closed form on the naturals. *)
Lemma fibonacci_calls_closed (k : nat) :
  fibonacci_calls (Z.of_nat k) = 2 * fibonacci (Z.of_nat k + 1) - 1.
Proof.
  enough (H : fibonacci_calls (Z.of_nat k) = 2 * fibonacci (Z.of_nat k + 1) - 1
              /\ fibonacci_calls (Z.of_nat (S k)) = 2 * fibonacci (Z.of_nat (S k) + 1) - 1)
    by apply H.
  induction k as [| k [IH0 IH1]]; [split; reflexivity |].
  split; [exact IH1 |].
  rewrite fibonacci_calls_body.
  replace (Z.of_nat (S (S k)) <=? 0) with false by (symmetry; apply Z.leb_gt; lia).
  replace (Z.of_nat (S (S k)) =? 1) with false by (symmetry; apply Z.eqb_neq; lia).
  replace (Z.of_nat (S (S k)) - 1) with (Z.of_nat (S k)) by lia.
  replace (Z.of_nat (S (S k)) - 2) with (Z.of_nat k) by lia.
  rewrite IH0, IH1.
  rewrite (fibonacci_step (Z.of_nat (S (S k)) + 1)) by lia.
  replace (Z.of_nat (S (S k)) + 1 - 1) with (Z.of_nat (S k) + 1) by lia.
  replace (Z.of_nat (S (S k)) + 1 - 2) with (Z.of_nat k + 1) by lia.
  lia.
Qed.

(** X1: for every n >= 0 the function returns the n-th number of the
    sequence F(0)=0, F(1)=1, F(k+2)=F(k+1)+F(k), not only on the ten
    arguments the driver prints. *)
Theorem fibonacci_is_canonical (n : Z) :
  0 <= n -> fibonacci n = canonical (Z.to_nat n).
Proof.
  intros Hn. rewrite <- fibonacci_canonical. f_equal. lia.
Qed.

Lemma fibonacci_is_canonical_witness : fibonacci 12 = canonical (Z.to_nat 12).
Proof. apply (fibonacci_is_canonical 12). lia. Defined.

(** X2: the function is monotone over all the integers and never negative:
    n <= m gives 0 <= fibonacci(n) <= fibonacci(m). *)
Theorem fibonacci_monotone (n m : Z) :
  n <= m -> 0 <= fibonacci n <= fibonacci m.
Proof.
  intros Hnm. split; [apply fibonacci_succ_le | now apply fibonacci_le].
Qed.

Lemma fibonacci_monotone_witness : 0 <= fibonacci (-4) <= fibonacci 6.
Proof. apply (fibonacci_monotone (-4) 6). lia. Defined.

(** X3: the call fibonacci(n) returns exactly when the call stack allows
    max(n, 1) frames: with that many it gives the function's value, with
    fewer the recursion runs out of stack. *)
Theorem fibonacci_depth_exact (depth : nat) (n : Z) :
  fibonacci_depth depth n =
  if Z.max n 1 <=? Z.of_nat depth then Some (fibonacci n) else None.
Proof.
  revert n. induction depth as [| d IH]; intros n.
  - cbn [fibonacci_depth].
    now replace (Z.max n 1 <=? Z.of_nat 0) with false by (symmetry; apply Z.leb_gt; lia).
  - cbn [fibonacci_depth]. rewrite (fibonacci_body n).
    destruct (n <=? 0) eqn:E0.
    + apply Z.leb_le in E0.
      now replace (Z.max n 1 <=? Z.of_nat (S d)) with true by (symmetry; apply Z.leb_le; lia).
    + apply Z.leb_gt in E0. destruct (n =? 1) eqn:E1.
      * apply Z.eqb_eq in E1.
        now replace (Z.max n 1 <=? Z.of_nat (S d)) with true by (symmetry; apply Z.leb_le; lia).
      * apply Z.eqb_neq in E1. rewrite (IH (n - 1)), (IH (n - 2)).
        destruct (Z.max n 1 <=? Z.of_nat (S d)) eqn:Ed.
        -- apply Z.leb_le in Ed.
           replace (Z.max (n - 1) 1 <=? Z.of_nat d) with true by (symmetry; apply Z.leb_le; lia).
           now replace (Z.max (n - 2) 1 <=? Z.of_nat d) with true by (symmetry; apply Z.leb_le; lia).
        -- apply Z.leb_gt in Ed.
           now replace (Z.max (n - 1) 1 <=? Z.of_nat d) with false by (symmetry; apply Z.leb_gt; lia).
Qed.

(** X4: one call fibonacci(n), n >= 0, enters the body 2*F(n+1) - 1 times
    in all; a call with n <= 0 enters it once. *)
Theorem fibonacci_calls_count (n : Z) :
  (0 <= n -> fibonacci_calls n = 2 * fibonacci (n + 1) - 1)
  /\ (n <= 0 -> fibonacci_calls n = 1).
Proof.
  split; intros Hn.
  - replace n with (Z.of_nat (Z.to_nat n)) by lia. apply fibonacci_calls_closed.
  - rewrite fibonacci_calls_body.
    now replace (n <=? 0) with true by (symmetry; apply Z.leb_le; exact Hn).
Qed.

Lemma fibonacci_calls_count_witness :
  fibonacci_calls 9 = 2 * fibonacci (9 + 1) - 1 /\ fibonacci_calls (-2) = 1.
Proof.
  split.
  - apply (proj1 (fibonacci_calls_count 9)). lia.
  - apply (proj2 (fibonacci_calls_count (-2))). lia.
Defined.

(** X5: the number of calls grows exponentially: for n >= 0 one call
    fibonacci(n) enters the body at least 2^(n/2) times. *)
Theorem fibonacci_calls_exponential (n : Z) :
  0 <= n -> 2 ^ (n / 2) <= fibonacci_calls n.
Proof.
  intros Hn.
  replace n with (Z.of_nat (Z.to_nat n)) at 2 by lia.
  rewrite fibonacci_calls_closed.
  replace (Z.of_nat (Z.to_nat n)) with n by lia.
  pose proof (fibonacci_odd_pow2 (Z.to_nat (n / 2))) as Hp.
  assert (Hh : 0 <= n / 2) by (apply Z.div_pos; lia).
  rewrite Z2Nat.id in Hp by exact Hh.
  pose proof (Z.mul_div_le n 2 ltac:(lia)) as Hd.
  pose proof (fibonacci_le (2 * (n / 2) + 1) (n + 1) ltac:(lia)).
  assert (0 < 2 ^ (n / 2)) by (apply Z.pow_pos_nonneg; lia).
  lia.
Qed.

Lemma fibonacci_calls_exponential_witness : 2 ^ (9 / 2) <= fibonacci_calls 9.
Proof. apply (fibonacci_calls_exponential 9). lia. Defined.

End FibonacciFurther.

(** ** binary64: conversion of integers, products and signs *)

Section Binary64Further.

(** Appending [d] zero bits multiplies by [2^d]. *)
Lemma pos_iter_xO (m d : positive) :
  Zpos (Pos.iter xO m d) = Zpos m * 2 ^ Zpos d.
Proof.
  induction d as [| d IH] using Pos.peano_ind.
  - cbn. lia.
  - rewrite Pos.iter_succ, Pos2Z.inj_xO, IH, Pos2Z.inj_succ, Z.pow_succ_r by lia. lia.
Qed.

(** Aligning a mantissa to a lower exponent keeps the value. *)
Lemma shl_align_spec (mx : positive) (ex ex' : Z) :
  let ez := Z.min ex ex' in
  exists mz, shl_align mx ex ex' = (mz, ez) /\ Zpos mz = Zpos mx * 2 ^ (ex - ez).
Proof.
  intros ez. unfold shl_align.
  destruct (ex' - ex) as [| d | d] eqn:E.
  - exists mx. replace ez with ex by (unfold ez; lia).
    split; [reflexivity |]. rewrite Z.sub_diag. cbn. lia.
  - exists mx. replace ez with ex by (unfold ez; lia).
    split; [reflexivity |]. rewrite Z.sub_diag. cbn. lia.
  - exists (Pos.iter xO mx d). replace ez with ex' by (unfold ez; lia).
    split; [reflexivity |]. rewrite pos_iter_xO. f_equal. f_equal. lia.
Qed.

(** Converting an integer rounds its mantissa at [int_exponent]. *)
Lemma binary_round_int (s : bool) (m : positive) :
  let ez := int_exponent m in
  binary_round prec emax s m 0
  = binary_round_aux prec emax s (Zpos m * 2 ^ (- ez)) ez loc_Exact.
Proof.
  intros ez. unfold binary_round.
  destruct (shl_align_spec m 0 (fexp prec emax (Zpos (digits2_pos m) + 0)))
    as (mz & E & Hmz).
  rewrite E, Hmz. rewrite fexp_binary64.
  replace (Z.min 0 (Z.max (Zpos (digits2_pos m) + 0 - 53) (-1074))) with ez
    by (unfold ez, int_exponent; lia).
  replace (0 - ez) with (- ez) by lia. reflexivity.
Qed.

(** An integer below [2^53] in magnitude converts exactly. *)
Lemma int_to_float_exact (z : Z) :
  Z.abs z < 2 ^ 53 ->
  exists f, int_to_float z = Return f /\ float_is f (inject_Z z)
            /\ (z <> 0 -> exists m e, f = S754_finite (z <? 0) m e).
Proof.
  intros Hz. unfold int_to_float.
  assert (Hpos : forall s m, Zpos m < 2 ^ 53 ->
            binary_round prec emax s m 0
            = S754_finite s (Z.to_pos (Zpos m * 2 ^ (53 - Zpos (digits2_pos m))))
                (Zpos (digits2_pos m) - 53)).
  { intros s m Hm. rewrite binary_round_int.
    pose proof (digits2_le_53 m Hm) as Hd.
    unfold int_exponent.
    replace (Z.min 0 (Zpos (digits2_pos m) - 53)) with (Zpos (digits2_pos m) - 53 - 0) by lia.
    replace (- (Zpos (digits2_pos m) - 53 - 0)) with (53 - Zpos (digits2_pos m) + 0) by lia.
    apply binary_round_aux_exact; lia. }
  destruct z as [| m | m]; cbn [binary_normalize].
  - eexists. split; [reflexivity |]. split; [| intros H; now contradiction H].
    exists 0%Q. split; reflexivity.
  - rewrite Hpos by exact Hz. eexists. split; [reflexivity |]. split.
    + apply (float_is_scaled false m). now apply digits2_le_53.
    + intros _. eexists. eexists. reflexivity.
  - rewrite Hpos by exact Hz. eexists. split; [reflexivity |]. split.
    + apply (float_is_scaled true m). now apply digits2_le_53.
    + intros _. eexists. eexists. reflexivity.
Qed.

(** Below [2^1023] the conversion gives a finite float of the same sign;
    from [2^1024] on it overflows. *)
Lemma binary_round_int_finite (s : bool) (m : positive) :
  Zpos m < 2 ^ 1023 ->
  exists m' e, binary_round prec emax s m 0 = S754_finite s m' e.
Proof.
  intros Hm. rewrite binary_round_int.
  set (ez := int_exponent m).
  assert (Hez : -52 <= ez <= 0) by (unfold ez, int_exponent; lia).
  assert (Hp : 0 < 2 ^ (- ez)) by (apply Z.pow_pos_nonneg; lia).
  set (M := Zpos m * 2 ^ (- ez)).
  assert (HM : 1 <= M) by (unfold M; nia).
  assert (Hhi : M < 2 ^ (1023 - ez)).
  { unfold M. replace (1023 - ez) with (1023 + - ez) by lia.
    rewrite Z.pow_add_r by lia. nia. }
  pose proof (binary_round_aux_no_overflow s M ez loc_Exact ltac:(lia) ltac:(lia)) as Hn.
  pose proof (binary_round_aux_faithful s M ez loc_Exact (M * 2 ^ (ez + 1074)) 1
                ltac:(lia) ltac:(lia) ltac:(lia)) as Hf.
  assert (HP : 0 < 2 ^ (ez + 1074)) by (apply Z.pow_pos_nonneg; lia).
  specialize (Hf ltac:(nia)).
  destruct (binary_round_aux prec emax s M ez loc_Exact) as [s' | s' | | s' m' e'];
    try discriminate Hn.
  - destruct Hf as [_ Hf]. lia.
  - destruct Hf as [-> _]. eexists. eexists. reflexivity.
Qed.

Lemma binary_round_int_overflow (s : bool) (m : positive) :
  2 ^ 1024 <= Zpos m -> binary_round prec emax s m 0 = S754_infinity s.
Proof.
  intros Hm. rewrite binary_round_int.
  assert (Hd : 1024 < Zpos (digits2_pos m)).
  { pose proof (digits2_bounds m) as [_ Hhi].
    apply (Z.pow_lt_mono_r_iff 2); lia. }
  replace (int_exponent m) with 0 by (unfold int_exponent; lia).
  cbn [Z.opp Z.pow]. rewrite Z.mul_1_r.
  apply binary_round_aux_overflow; [lia | exact Hm].
Qed.

Lemma int_to_float_finite (z : Z) :
  z <> 0 -> Z.abs z < 2 ^ 1023 ->
  exists m e, int_to_float z = Return (S754_finite (z <? 0) m e).
Proof.
  intros Hz Hlt. unfold int_to_float.
  destruct z as [| p | p]; [contradiction | |]; cbn [binary_normalize].
  - destruct (binary_round_int_finite false p Hlt) as (m & e & ->). now exists m, e.
  - destruct (binary_round_int_finite true p Hlt) as (m & e & ->). now exists m, e.
Qed.

Lemma int_to_float_overflow (z : Z) :
  2 ^ 1024 <= Z.abs z -> int_to_float z = Raise OverflowError.
Proof.
  intros Hz. unfold int_to_float.
  assert (0 < 2 ^ 1024) by (apply Z.pow_pos_nonneg; lia).
  destruct z as [| p | p]; [cbn in Hz; lia | |]; cbn [binary_normalize].
  - now rewrite binary_round_int_overflow.
  - now rewrite binary_round_int_overflow.
Qed.

(** Conversion of a non-zero integer below [2^53]: the normalised float of
    its sign and magnitude. *)
Lemma int_to_float_small (z : Z) :
  z <> 0 -> Z.abs z < 2 ^ 53 ->
  int_to_float z = Return (float53 (z <? 0) (Z.to_pos (Z.abs z))).
Proof.
  intros Hz Hlt. unfold int_to_float.
  assert (Hpos : forall s m, Zpos m < 2 ^ 53 ->
            binary_round prec emax s m 0 = float53 s m).
  { intros s m Hm. rewrite binary_round_int.
    pose proof (digits2_le_53 m Hm) as Hd.
    unfold int_exponent, float53.
    replace (Z.min 0 (Zpos (digits2_pos m) - 53)) with (Zpos (digits2_pos m) - 53 - 0) by lia.
    replace (- (Zpos (digits2_pos m) - 53 - 0)) with (53 - Zpos (digits2_pos m) + 0) by lia.
    apply binary_round_aux_exact; lia. }
  destruct z as [| m | m]; [contradiction | |]; cbn [binary_normalize];
    now rewrite Hpos by exact Hlt.
Qed.

(** Division with an integer quotient below [2^53]: the float of the
    quotient. *)
Lemma int_true_divide_small (a b q : Z) :
  a <> 0 -> a = q * b -> Z.abs q < 2 ^ 53 ->
  int_true_divide a b = Return (float53 (q <? 0) (Z.to_pos (Z.abs q))).
Proof.
  intros Ha Hq Hlt.
  assert (Hb : b <> 0) by (intros ->; lia).
  assert (Hq0 : q <> 0) by (intros ->; lia).
  set (mq := Z.to_pos (Z.abs q)).
  assert (Hmq : Zpos mq = Z.abs q) by (unfold mq; rewrite Z2Pos.id; lia).
  assert (Hdq : Zpos (digits2_pos mq) <= 53) by (apply digits2_le_53; lia).
  assert (Hquot : forall sa sb ma mb,
             Zpos ma = Z.abs a -> Zpos mb = Z.abs b ->
             SFdiv prec emax (S754_finite sa ma 0) (S754_finite sb mb 0)
             = float53 (xorb sa sb) mq).
  { intros sa sb ma mb Hma Hmb.
    apply (SFdiv_exact_quotient sa sb ma mb mq); [| exact Hdq].
    apply Pos2Z.inj. rewrite Pos2Z.inj_mul, Hma, Hmb, Hmq, Hq. apply Z.abs_mul. }
  unfold int_true_divide.
  destruct a as [| ma | ma], b as [| mb | mb]; try contradiction; cbn [float_of_parts].
  - rewrite (Hquot false false) by reflexivity.
    replace (q <? 0) with false by (symmetry; apply Z.ltb_ge; nia). reflexivity.
  - rewrite (Hquot false true) by reflexivity.
    replace (q <? 0) with true by (symmetry; apply Z.ltb_lt; nia). reflexivity.
  - rewrite (Hquot true false) by reflexivity.
    replace (q <? 0) with true by (symmetry; apply Z.ltb_lt; nia). reflexivity.
  - rewrite (Hquot true true) by reflexivity.
    replace (q <? 0) with false by (symmetry; apply Z.ltb_ge; nia). reflexivity.
Qed.

(** The product of two normalised floats whose exact product fits 53 bits
    is the normalised float of that product. *)
Lemma float_mul_small (s1 s2 : bool) (m1 m2 : positive) :
  Zpos m1 * Zpos m2 < 2 ^ 53 ->
  float_mul (float53 s1 m1) (float53 s2 m2) = float53 (xorb s1 s2) (m1 * m2).
Proof.
  intros Hlt.
  pose proof (digits2_mul m1 m2) as Hd. cbv zeta in Hd.
  assert (Hdm : Zpos (digits2_pos (m1 * m2)) <= 53)
    by (apply digits2_le_53; now rewrite Pos2Z.inj_mul).
  set (d1 := Zpos (digits2_pos m1)) in *. set (d2 := Zpos (digits2_pos m2)) in *.
  set (d := Zpos (digits2_pos (m1 * m2))) in *.
  assert (H1 : 0 < d1) by (unfold d1; lia). assert (H2 : 0 < d2) by (unfold d2; lia).
  unfold float_mul, float53, SFmul. fold d1 d2 d.
  assert (Hp1 : 0 < Zpos m1 * 2 ^ (53 - d1)).
  { apply Z.mul_pos_pos; [lia | apply Z.pow_pos_nonneg; lia]. }
  assert (Hp2 : 0 < Zpos m2 * 2 ^ (53 - d2)).
  { apply Z.mul_pos_pos; [lia | apply Z.pow_pos_nonneg; lia]. }
  rewrite Pos2Z.inj_mul, !Z2Pos.id by assumption.
  set (t := 53 + d - d1 - d2).
  replace (Zpos m1 * 2 ^ (53 - d1) * (Zpos m2 * 2 ^ (53 - d2)))
    with (Zpos (m1 * m2) * 2 ^ (53 - d + t)).
  2:{ rewrite Pos2Z.inj_mul.
      replace (53 - d + t) with ((53 - d1) + (53 - d2)) by (unfold t; lia).
      rewrite Z.pow_add_r by lia. ring. }
  replace (d1 - 53 + (d2 - 53)) with (d - 53 - t) by (unfold t; lia).
  apply binary_round_aux_exact; [exact Hdm | unfold t; lia].
Qed.

(** The value of a normalised float, and what [==] makes of it. *)
Lemma float_is_float53 (s : bool) (m : positive) :
  Zpos m < 2 ^ 53 -> float_is (float53 s m) (inject_Z (cond_Zopp s (Zpos m))).
Proof.
  intros H. apply (float_is_scaled s m). now apply digits2_le_53.
Qed.

Lemma float_is_eq_int (f : spec_float) (z : Z) :
  float_is f (inject_Z z) -> float_eq_int f z = true.
Proof.
  intros (q & Hq & E). unfold float_eq_int. rewrite Hq.
  apply Qeq_bool_iff. exact E.
Qed.

(** Changing the sign handed to the rounding step changes the sign of its
    result and nothing else. *)
Lemma binary_round_aux_opp (s : bool) (m e : Z) (l : location) :
  binary_round_aux prec emax (negb s) m e l
  = SFopp (binary_round_aux prec emax s m e l).
Proof.
  unfold binary_round_aux.
  destruct (shr_fexp prec emax m e l) as [mrs1 e1].
  destruct (shr_fexp prec emax _ e1 loc_Exact) as [mrs2 e2].
  destruct (shr_m mrs2); try reflexivity.
  now destruct (e2 <=? emax - prec).
Qed.

Lemma SFdiv_opp_l (sa sb : bool) (ma mb : positive) (ea eb : Z) :
  SFdiv prec emax (S754_finite (negb sa) ma ea) (S754_finite sb mb eb)
  = SFopp (SFdiv prec emax (S754_finite sa ma ea) (S754_finite sb mb eb)).
Proof.
  unfold SFdiv.
  destruct (SFdiv_core_binary prec emax (Zpos ma) ea (Zpos mb) eb) as [[mz ez] lz].
  replace (xorb (negb sa) sb) with (negb (xorb sa sb)) by (now destruct sa, sb).
  apply binary_round_aux_opp.
Qed.

Lemma SFdiv_opp_r (sa sb : bool) (ma mb : positive) (ea eb : Z) :
  SFdiv prec emax (S754_finite sa ma ea) (S754_finite (negb sb) mb eb)
  = SFopp (SFdiv prec emax (S754_finite sa ma ea) (S754_finite sb mb eb)).
Proof.
  unfold SFdiv.
  destruct (SFdiv_core_binary prec emax (Zpos ma) ea (Zpos mb) eb) as [[mz ez] lz].
  replace (xorb sa (negb sb)) with (negb (xorb sa sb)) by (now destruct sa, sb).
  apply binary_round_aux_opp.
Qed.

(** Negating a non-zero dividend, or the divisor under it, negates the
    quotient; an overflow stays an overflow. *)
Lemma int_true_divide_opp (a b : Z) :
  a <> 0 ->
  int_true_divide (- a) b = (f <- int_true_divide a b ;; Return (SFopp f))%py
  /\ int_true_divide a (- b) = (f <- int_true_divide a b ;; Return (SFopp f))%py.
Proof.
  intros Ha. unfold int_true_divide.
  destruct a as [| ma | ma], b as [| mb | mb]; try contradiction;
    cbn [Z.opp float_of_parts bind]; try (split; reflexivity).
  all: split.
  all: match goal with
       | |- context [SFdiv prec emax (S754_finite ?sa ?ma 0) (S754_finite ?sb ?mb 0)] =>
           first [ solve [ pose proof (SFdiv_opp_l (negb sa) sb ma mb 0 0) as E;
                           cbn [negb] in E; rewrite E; clear E;
                           now destruct (SFdiv prec emax _ _) ]
                 | solve [ pose proof (SFdiv_opp_r sa (negb sb) ma mb 0 0) as E;
                           cbn [negb] in E; rewrite E; clear E;
                           now destruct (SFdiv prec emax _ _) ] ]
       end.
Qed.

End Binary64Further.

(** ** The calculator: how the operations compose, and the edges of power
    and divide *)

Section CalculatorFurther.

Import Calculator Harness.

(** X6: on integers, add and subtract undo each other exactly:
    subtract(add(a, b), b) = a and add(subtract(a, b), b) = a, whatever the
    size of the operands. *)
Theorem add_subtract_inverse (a b : Z) :
  (s <- add a b ;; subtract s b)%py = Return a
  /\ (d <- subtract a b ;; add d b)%py = Return a.
Proof.
  unfold add, subtract, py_add, py_sub, int_add, int_sub. cbn [bind].
  split; f_equal; lia.
Qed.

(** X7: modulo ignores multiples of the divisor and is idempotent:
    modulo(add(a, multiply(k, b)), b) and modulo(modulo(a, b), b) both
    behave as modulo(a, b), the ValueError for b = 0 included. *)
Theorem modulo_absorbs_multiples (a b k : Z) :
  (m <- multiply k b ;; s <- add a m ;; modulo s b)%py = modulo a b
  /\ (r <- modulo a b ;; modulo r b)%py = modulo a b.
Proof.
  destruct (Z.eq_dec b 0) as [-> | Hb].
  - split; reflexivity.
  - cbn [multiply add py_mul py_add int_mul int_add bind].
    rewrite !(modulo_nonzero _ b Hb). cbn [bind].
    rewrite (modulo_nonzero _ b Hb).
    split; f_equal; [apply Z.mod_add; exact Hb | apply Z.mod_mod; exact Hb].
Qed.

(** X8: for exponents b, c >= 0,
    multiply(power(a, b), power(a, c)) = power(a, b + c), an exact integer. *)
Theorem power_adds_exponents (a b c : Z) :
  0 <= b -> 0 <= c ->
  (x <- power a b ;; y <- power a c ;; multiply x y)%py = power a (b + c).
Proof.
  intros Hb Hc. unfold power, py_pow, int_power, int_pow.
  replace (0 <=? b) with true by (symmetry; apply Z.leb_le; lia).
  replace (0 <=? c) with true by (symmetry; apply Z.leb_le; lia).
  replace (0 <=? b + c) with true by (symmetry; apply Z.leb_le; lia).
  cbn. now rewrite Z.pow_add_r.
Qed.

Lemma power_adds_exponents_witness :
  (x <- power 2 3 ;; y <- power 2 7 ;; multiply x y)%py = power 2 (3 + 7).
Proof. apply (power_adds_exponents 2 3 7); lia. Defined.

(** Below zero, [power] converts both operands and raises or returns a
    float. *)
Lemma power_negative (a b : Z) :
  b < 0 ->
  power a b = (x <- int_to_float a ;;
               y <- int_to_float b ;;
               r <- float_pow_negative x y ;;
               Return (VFloat r))%py.
Proof.
  intros Hb. unfold power, py_pow, int_power, int_pow.
  now replace (0 <=? b) with false by (symmetry; apply Z.leb_gt; lia).
Qed.

(** X9: the errors of power on a negative exponent b.  A zero base raises
    ZeroDivisionError (for |b| < 2^1023); a base of magnitude 2^1024 or more
    raises OverflowError; so does an exponent of magnitude 2^1024 or more
    under a base below 2^1023. *)
Theorem power_negative_exponent_errors (a b : Z) :
  b < 0 ->
  (a = 0 -> Z.abs b < 2 ^ 1023 -> power a b = Raise ZeroDivisionError)
  /\ (2 ^ 1024 <= Z.abs a -> power a b = Raise OverflowError)
  /\ (Z.abs a < 2 ^ 1023 -> 2 ^ 1024 <= Z.abs b -> power a b = Raise OverflowError).
Proof.
  intros Hb. rewrite (power_negative a b Hb). split; [| split].
  - intros -> Hlt.
    destruct (int_to_float_finite b ltac:(lia) Hlt) as (m & e & ->). reflexivity.
  - intros Ha. now rewrite (int_to_float_overflow a Ha).
  - intros Ha Hbig. rewrite (int_to_float_overflow b Hbig).
    destruct (Z.eq_dec a 0) as [-> | Ha0]; [reflexivity |].
    destruct (int_to_float_finite a Ha0 Ha) as (m & e & ->). reflexivity.
Qed.

Lemma power_negative_exponent_errors_witness :
  power 0 (-3) = (Raise ZeroDivisionError : outcome value)
  /\ power (2 ^ 1024) (-1) = (Raise OverflowError : outcome value)
  /\ power 5 (- 2 ^ 1024) = (Raise OverflowError : outcome value).
Proof.
  split; [| split].
  - apply (proj1 (power_negative_exponent_errors 0 (-3) ltac:(lia)));
      [reflexivity | cbn; lia].
  - apply (proj1 (proj2 (power_negative_exponent_errors (2 ^ 1024) (-1) ltac:(lia)))).
    cbn. lia.
  - assert (Hb : - 2 ^ 1024 < 0) by (cbn; lia).
    apply (proj2 (proj2 (power_negative_exponent_errors 5 (- 2 ^ 1024) Hb)));
      cbn; lia.
Defined.



(** X11: the round trip on the script's own operand types.  When b
    divides a and both are below 2^53 in magnitude, multiply(divide(a, b), b)
    returns a float that stands for exactly a and compares equal to a. *)
Theorem divide_multiply_float_roundtrip (a b q : Z) :
  b <> 0 -> a = q * b -> Z.abs a < 2 ^ 53 -> Z.abs b < 2 ^ 53 ->
  exists f, (d <- divide a b ;; multiply d b)%py = Return f
            /\ float_is f (inject_Z a)
            /\ py_eq f a = true.
Proof.
  intros Hb Hq Ha Hlb.
  rewrite (divide_nonzero a b Hb).
  enough (H : exists f, (d <- int_true_divide a b ;; multiply d b)%py = Return f
                        /\ float_is f (inject_Z a)).
  { destruct H as (f & Hf & His). exists f. split; [exact Hf |].
    split; [exact His | now apply float_is_eq_int]. }
  unfold multiply, py_mul, float_mul_int.
  rewrite (int_to_float_small b Hb Hlb).
  destruct (Z.eq_dec a 0) as [Ha0 | Ha0].
  - subst a. rewrite Ha0.
    exists (S754_zero (xorb (xorb (0 <? 0) (b <? 0)) (b <? 0))). split.
    + destruct b; [contradiction | reflexivity | reflexivity].
    + exists 0%Q. split; reflexivity.
  - assert (Hq0 : q <> 0) by (intros ->; lia).
    assert (Hlq : Z.abs q < 2 ^ 53) by nia.
    rewrite (int_true_divide_small a b q Ha0 Hq Hlq). cbn [bind].
    rewrite float_mul_small by (rewrite !Z2Pos.id by lia; rewrite <- Z.abs_mul, <- Hq; exact Ha).
    eexists. split; [reflexivity |].
    replace (inject_Z a)
      with (inject_Z (cond_Zopp (xorb (q <? 0) (b <? 0))
                        (Zpos (Z.to_pos (Z.abs q) * Z.to_pos (Z.abs b))))).
    + apply float_is_float53.
      rewrite Pos2Z.inj_mul, !Z2Pos.id by lia. rewrite <- Z.abs_mul, <- Hq. exact Ha.
    + f_equal. rewrite Pos2Z.inj_mul, !Z2Pos.id by lia.
      destruct (Z.ltb_spec q 0), (Z.ltb_spec b 0); cbn [xorb cond_Zopp]; nia.
Qed.

Lemma divide_multiply_float_roundtrip_witness :
  exists f, (d <- divide 84 7 ;; multiply d 7)%py = Return f
            /\ float_is f 84 /\ py_eq f 84 = true.
Proof.
  apply (divide_multiply_float_roundtrip 84 7 12); [lia | reflexivity | cbn; lia | cbn; lia].
Defined.

(** X12: divide(a, a) is the float 1.0 for every non-zero integer a,
    however large: no overflow, no rounding. *)
Theorem divide_self (a : Z) :
  a <> 0 -> divide a a = Return (S754_finite false 4503599627370496 (-52)).
Proof.
  intros Ha. rewrite (divide_nonzero a a Ha).
  rewrite (int_true_divide_small a a 1 Ha ltac:(lia) ltac:(cbn; lia)).
  reflexivity.
Qed.

Lemma divide_self_witness :
  divide (10 ^ 400) (10 ^ 400) = Return (S754_finite false 4503599627370496 (-52)).
Proof.
  apply (divide_self (10 ^ 400)). intros H. vm_compute in H. discriminate H.
Defined.

(** X13: for a non-zero dividend, negating the dividend or the divisor
    negates the float that divide returns and leaves its errors as they
    are. *)
Theorem divide_negation (a b : Z) :
  a <> 0 ->
  divide (- a) b = (f <- divide a b ;; Return (SFopp f))%py
  /\ divide a (- b) = (f <- divide a b ;; Return (SFopp f))%py.
Proof.
  intros Ha. destruct (Z.eq_dec b 0) as [-> | Hb].
  - split; reflexivity.
  - rewrite !divide_nonzero by lia. now apply int_true_divide_opp.
Qed.

Lemma divide_negation_witness :
  divide (- 1) 3 = (f <- divide 1 3 ;; Return (SFopp f))%py
  /\ divide 1 (- 3) = (f <- divide 1 3 ;; Return (SFopp f))%py.
Proof. apply (divide_negation 1 3). lia. Defined.

End CalculatorFurther.
